(** * solve.ts: Shamir secret reconstruction, embedded and verified

    A shallow embedding of [solve.ts]: the base decoder
    [parseBigIntWithBase], the record traversal [getPointsFromJSON], the
    Lagrange evaluation [findSecret] and the driver [main].

    Conventions of the embedding.
    - A [bigint] is a [Z]; BigInt arithmetic is unbounded, so [+], [-], [*]
      are those of [Z], and BigInt [/] is [Z.quot] (rounds toward zero) with a
      [RangeError] on a zero divisor.
    - A JavaScript string is a [string]: each [ascii] stands for one UTF-16
      code unit below 256 (the Latin-1 range), which covers every digit
      string and every identifier of the input files.
    - A [throw] is the [Throw] constructor of [completion]; sequencing is the
      bind of that error monad. *)

From Stdlib Require Import ZArith NArith List String Ascii Bool Lia.
From Stdlib Require Import Permutation Sorted.
From Stdlib Require Import DecimalString.
Import ListNotations.

Set Implicit Arguments.
Open Scope Z_scope.

(** ** The JavaScript run-time the program relies on *)

Module JS.

(** The exceptions the program can raise.  Only the first one is thrown by
    the program text; the others are raised by built-in operations. *)
Inductive exn : Type :=
| Error_InvalidCharacter (char : ascii) (base : Z)
    (* new Error(`Invalid character '${char}' for base ${base}`) *)
| RangeError_NotAnInteger
    (* BigInt(NaN), BigInt(Infinity) : "The number NaN cannot be converted
       to a BigInt because it is not an integer" *)
| RangeError_DivisionByZero
    (* x / 0n *)
| SyntaxError_BigInt (text : string).
    (* BigInt("abc") : "Cannot convert abc to a BigInt" *)

(** How an evaluation completes: normally with a value, or abruptly. *)
Inductive completion (A : Type) : Type :=
| Ok (a : A)
| Throw (e : exn).
Arguments Ok {A} a.
Arguments Throw {A} e.

Definition bind {A B : Type} (r : completion A) (k : A -> completion B) : completion B :=
  match r with
  | Ok a => k a
  | Throw e => Throw e
  end.

(** A value of type [number] as the program meets it: the radix handed to
    the decoder is the outcome of [parseInt], which is an integer, [NaN],
    or an infinity of either sign. *)
Inductive number : Type :=
| NaN
| Num (z : Z)
| Infinity (negative : bool).

(** [BigInt(n)] for a number: only an integer converts. *)
Definition BigInt (n : number) : completion Z :=
  match n with
  | Num z => Ok z
  | NaN | Infinity _ => Throw RangeError_NotAnInteger
  end.

(** BigInt division [a / b]. *)
Definition div (a b : Z) : completion Z :=
  if b =? 0 then Throw RangeError_DivisionByZero else Ok (Z.quot a b).

(** [c.toLowerCase()] for a one-unit string, on the Latin-1 range: the
    letters A-Z and the accented capitals U+00C0-U+00DE (U+00D7, the
    multiplication sign, apart) move up by 32. *)
Definition toLowerCase (c : ascii) : ascii :=
  let n := N_of_ascii c in
  if (((65 <=? n) && (n <=? 90)) ||
      ((192 <=? n) && (n <=? 222) && negb (n =? 215)))%N
  then ascii_of_N (n + 32) else c.

(** [s.indexOf(c)] for a one-unit search string: the position of the first
    occurrence, or -1. *)
Fixpoint indexOf_from (s : string) (c : ascii) (i : Z) : Z :=
  match s with
  | EmptyString => -1
  | String d s' => if Ascii.eqb d c then i else indexOf_from s' c (i + 1)
  end.

Definition indexOf (s : string) (c : ascii) : Z := indexOf_from s c 0.

(** [l.slice(0, k)] for an integer [k]: a negative [k] counts from the
    end. *)
Definition slice0 {A : Type} (l : list A) (k : Z) : list A :=
  let len := Z.of_nat (List.length l) in
  let final := if k <? 0 then Z.max (len + k) 0 else Z.min k len in
  firstn (Z.to_nat final) l.

(** *** Strings read as numbers *)

(** WhiteSpace and LineTerminator code units of the Latin-1 range:
    TAB, LF, VT, FF, CR, SP and NBSP. *)
Definition isWhiteSpace (c : ascii) : bool :=
  let n := N_of_ascii c in
  (((9 <=? n) && (n <=? 13)) || (n =? 32) || (n =? 160))%N.

Fixpoint trimStart (cs : list ascii) : list ascii :=
  match cs with
  | [] => []
  | c :: cs' => if isWhiteSpace c then trimStart cs' else cs
  end.

Definition trim (cs : list ascii) : list ascii :=
  rev (trimStart (rev (trimStart cs))).

(** The value of a digit or letter as a digit of some radix, -1 for any
    other character. *)
Definition radixDigit (c : ascii) : Z :=
  indexOf "0123456789abcdefghijklmnopqrstuvwxyz" (toLowerCase c).

(** The longest prefix of [cs] made of radix-[R] digits, read in radix
    [R], with the number of digits read and what follows them. *)
Fixpoint readDigits (R : Z) (cs : list ascii) (acc : Z) (count : nat)
  : Z * nat * list ascii :=
  match cs with
  | [] => (acc, count, [])
  | c :: cs' =>
      let d := radixDigit c in
      if (0 <=? d) && (d <? R) then readDigits R cs' (acc * R + d) (S count)
      else (acc, count, cs)
  end.

(** A non-empty run of radix-[R] digits and nothing else. *)
Definition wholeNumeral (R : Z) (cs : list ascii) : option Z :=
  match readDigits R cs 0 0 with
  | (v, S _, []) => Some v
  | _ => None
  end.

(** The radix announced by a prefix 0x, 0o or 0b, in either case, with the
    text after the prefix. *)
Definition radixPrefix (cs : list ascii) : option (Z * list ascii) :=
  match cs with
  | c1 :: c2 :: r =>
      if Ascii.eqb c1 "0" then
        if Ascii.eqb c2 "x" || Ascii.eqb c2 "X" then Some (16, r)
        else if Ascii.eqb c2 "o" || Ascii.eqb c2 "O" then Some (8, r)
        else if Ascii.eqb c2 "b" || Ascii.eqb c2 "B" then Some (2, r)
        else None
      else None
  | _ => None
  end.

(** [BigInt(s)] for a string (StringToBigInt): surrounding white space is
    dropped, the empty string is 0n, a decimal numeral may carry a sign,
    and the prefixes 0x, 0o and 0b select another radix. *)
Definition BigInt_ofString (s : string) : completion Z :=
  let answer (o : option Z) :=
    match o with
    | Some v => Ok v
    | None => Throw (SyntaxError_BigInt s)
    end in
  match trim (list_ascii_of_string s) with
  | [] => Ok 0
  | c :: r =>
      match radixPrefix (c :: r) with
      | Some (R, r') => answer (wholeNumeral R r')
      | None =>
          if Ascii.eqb c "+" then answer (wholeNumeral 10 r)
          else if Ascii.eqb c "-" then answer (option_map Z.opp (wholeNumeral 10 r))
          else answer (wholeNumeral 10 (c :: r))
      end
  end.

(** The number, a double, that stands for an integer [m] >= 0: [m] itself
    below 2^53; from there on the nearest multiple of 2^e that has 53
    significant bits, the even one of two equally near; nothing finite from
    2^1024 on. *)
Definition roundToDouble (m : Z) : option Z :=
  if m <? 2 ^ 53 then Some m
  else
    let e := Z.log2 m - 52 in
    let q := m / 2 ^ e in
    let r := m mod 2 ^ e in
    let half := 2 ^ (e - 1) in
    let q' := if (half <? r) || ((r =? half) && Z.odd q) then q + 1 else q in
    let v := q' * 2 ^ e in
    if v <? 2 ^ 1024 then Some v else None.

(** [parseInt(s, 10)] for a string: leading white space and a sign are
    skipped, then the longest prefix of decimal digits is read; without any
    digit the answer is [NaN].  The integer read becomes a number: it is
    rounded to a double, and to an infinity when it is too large for one. *)
Definition parseInt10 (s : string) : number :=
  let inputString := trimStart (list_ascii_of_string s) in
  let '(sign, rest) :=
    match inputString with
    | "-"%char :: r => (-1, r)
    | "+"%char :: r => (1, r)
    | _ => (1, inputString)
    end in
  match readDigits 10 rest 0 0 with
  | (_, O, _) => NaN
  | (mathInt, _, _) =>
      match roundToDouble mathInt with
      | Some v => Num (sign * v)
      | None => Infinity (sign <? 0)
      end
  end.

(** *** Objects and the order of their properties *)

(** An object is the list of its own properties in the order of their
    creation; each key occurs once. *)
Definition object (A : Type) : Type := list (string * A).

(** [o[key] = v]: a new property goes to the end, an existing one keeps
    its place and takes the new value. *)
Fixpoint set {A : Type} (o : object A) (key : string) (v : A) : object A :=
  match o with
  | [] => [(key, v)]
  | (key', v') :: o' =>
      if String.eqb key' key then (key, v) :: o'
      else (key', v') :: set o' key v
  end.

(** The object [JSON.parse] builds from the members of an object literal,
    given in the order of the text. *)
Definition JSON_parse {A : Type} (members : list (string * A)) : object A :=
  fold_left (fun o m => set o (fst m) (snd m)) members [].

(** A key is an array index when it is the canonical decimal numeral of
    an integer of 0 .. 2^32 - 2. *)
Definition arrayIndex (key : string) : option Z :=
  let cs := list_ascii_of_string key in
  let leadingZero :=
    match cs with
    | c :: _ :: _ => Ascii.eqb c "0"
    | _ => false
    end in
  if leadingZero then None
  else
    match wholeNumeral 10 cs with
    | Some i => if i <? 4294967295 then Some i else None
    | None => None
    end.

(** Insertion of a property into a list ordered by index. *)
Fixpoint insertByIndex {A : Type} (i : Z) (p : string * A)
    (l : list (Z * (string * A))) : list (Z * (string * A)) :=
  match l with
  | [] => [(i, p)]
  | (i', p') :: l' =>
      if i <=? i' then (i, p) :: l else (i', p') :: insertByIndex i p l'
  end.

Fixpoint indexProperties {A : Type} (o : object A) : list (Z * (string * A)) :=
  match o with
  | [] => []
  | p :: o' =>
      match arrayIndex (fst p) with
      | Some i => insertByIndex i p (indexProperties o')
      | None => indexProperties o'
      end
  end.

Definition isNamed {A : Type} (p : string * A) : bool :=
  match arrayIndex (fst p) with
  | Some _ => false
  | None => true
  end.

(** The properties as [for (key in o)] visits them: those whose key is an
    array index first, by ascending index, then the others in the order of
    their creation. *)
Definition forIn {A : Type} (o : object A) : list (string * A) :=
  map snd (indexProperties o) ++ filter isNamed o.

End JS.

Export JS.

Declare Scope js_scope.
Notation "x <- e ;; k" := (bind e (fun x => k))
  (at level 61, e at next level, right associativity) : js_scope.
Open Scope js_scope.

(** ** The base decoder (solve.ts, lines 35-48) *)

Definition digits : string := "0123456789abcdefghijklmnopqrstuvwxyz".

(** The value the loop body computes for one character of the input. *)
Definition digitValue (c : ascii) : Z := indexOf digits (toLowerCase c).

(** The [for] loop over [value], with [result] as the accumulator.  [base]
    serves both as the number compared with [digitValue] and as
    [baseBigInt], which is the same integer. *)
Fixpoint parseLoop (value : string) (base : Z) (result : Z) : completion Z :=
  match value with
  | EmptyString => Ok result
  | String c rest =>
      let char := toLowerCase c in
      let digitValue := indexOf digits char in
      if (digitValue =? -1) || (digitValue >=? base)
      then Throw (Error_InvalidCharacter char base)
      else parseLoop rest base (result * base + digitValue)
  end.

Definition parseBigIntWithBase (value : string) (base : number) : completion Z :=
  baseBigInt <- BigInt base ;;
  parseLoop value baseBigInt 0.

(** ** Points, and the record of a test case (solve.ts, lines 11-23) *)

Record Point : Type := { x : Z; y : Z }.

(** The two numbers of the property [keys]. *)
Record Keys : Type := { n : Z; k : Z }.

(** One share as the file gives it: a radix and a numeral in that radix,
    both as strings.  (A radix given as a JSON number reaches [parseInt] as
    its decimal numeral.) *)
Record Share : Type := { base : string; value : string }.

(** A parsed test case: the property [keys], and the object made of the
    other properties, one per share.  [for (key in data)] also visits
    [keys]; it is not an array index and line 59 skips it, so where it
    stands among the properties is of no consequence. *)
Record TestCase : Type := { keys : Keys; shares : object Share }.

(** The test case read from a file whose numbered members are [members],
    in the order of the text. *)
Definition testCaseOf (ks : Keys) (members : list (string * Share)) : TestCase :=
  {| keys := ks; shares := JSON_parse members |}.

(** ** Decoding the shares (solve.ts, lines 55-69) *)

(** The body of the [for]-[in] loop for the properties still to visit, with
    [points] the array built so far. *)
Fixpoint pointsLoop (props : list (string * Share)) (points : list Point)
  : completion (list Point) :=
  match props with
  | [] => Ok points
  | (key, entry) :: rest =>
      if negb (String.eqb key "keys") then
        x <- BigInt_ofString key ;;
        let base := parseInt10 (base entry) in
        let value := value entry in
        y <- parseBigIntWithBase value base ;;
        pointsLoop rest (points ++ [{| x := x; y := y |}])
      else pointsLoop rest points
  end.

Definition getPointsFromJSON (data : TestCase) : completion (list Point) :=
  pointsLoop (forIn (shares data)) [].

(** ** Lagrange evaluation at 0 (solve.ts, lines 78-106) *)

(** [points[j]]; the index is within the array wherever the program uses
    it. *)
Definition at_ (points : list Point) (j : nat) : Point :=
  nth j points {| x := 0; y := 0 |}.

(** The inner loop over [m]: the pair [(numerator, denominator)] after the
    indices [ms]. *)
Definition basisLoop (points : list Point) (j : nat) (ms : list nat)
    (start : Z * Z) : Z * Z :=
  fold_left
    (fun nd m =>
       let '(numerator, denominator) := nd in
       if negb (j =? m)%nat then
         let currentPoint := at_ points j in
         let otherPoint := at_ points m in
         (numerator * (0 - x otherPoint),
          denominator * (x currentPoint - x otherPoint))
       else (numerator, denominator))
    ms start.

(** The outer loop over [j], with [secret] the running sum. *)
Fixpoint secretLoop (points : list Point) (js : list nat) (secret : Z)
  : completion Z :=
  match js with
  | [] => Ok secret
  | j :: js' =>
      let currentPoint := at_ points j in
      let '(numerator, denominator) :=
        basisLoop points j (seq 0 (List.length points)) (1, 1) in
      term <- div (y currentPoint * numerator) denominator ;;
      secretLoop points js' (secret + term)
  end.

Definition findSecret (points : list Point) : completion Z :=
  secretLoop points (seq 0 (List.length points)) 0.

(** ** The driver (solve.ts, lines 109-145) *)

(** The array [pointsToUse] of line 129. *)
Definition pointsToUse (testCase : TestCase) : completion (list Point) :=
  let k := k (keys testCase) in
  allPoints <- getPointsFromJSON testCase ;;
  Ok (slice0 allPoints k).

(** The secret that line 139 prints; an exception is caught at line 142 and
    reported on the error stream, and then no secret is printed. *)
Definition main (testCase : TestCase) : completion Z :=
  pointsToUse <- pointsToUse testCase ;;
  findSecret pointsToUse.

(** ** The driver with its console and its file (solve.ts, lines 109-145) *)

(** [z.toString()] and [`${z}`] for a BigInt: the decimal numeral, with a
    minus sign below zero. *)
Definition toString (z : Z) : string := NilZero.string_of_int (Z.to_int z).

Section Driver.

(** What reading the file and parsing its text may throw, and these two
    operations, which belong to the run-time: each returns its result or
    the exception it throws.  A text that parses is taken to parse to a
    record of the shape of [TestCase]. *)
Variable E : Type.
Variable readFileSync : string -> string + E.
Variable JSON_parse_text : string -> TestCase + E.

(** [`${k}`] for the number [k], also an operation of the run-time: the
    decimal numeral of an integer below 2^53 in absolute value; beyond,
    the shortest digits that read back as the same number, followed by
    zeros, and by an exponent from 10^21 on. *)
Variable Number_toString : Z -> string.

(** One call of [console.error]: a text alone, or a text with the
    exception caught at line 142. *)
Inductive errorLine : Type :=
| ErrorText (text : string)
| ErrorCaught (text : string) (error : exn + E).

(** What a run leaves on the two streams, one entry for each call of
    [console.log] and of [console.error]. *)
Record output : Type := { stdout : list string; stderr : list errorLine }.

Definition caught (printed : list string) (error : exn + E) : output :=
  {| stdout := printed;
     stderr := [ErrorCaught "An error occurred:" error] |}.

(** The lines 131 and 132. *)
Definition reportPoints (k : Z) (pointsToUse : list Point) : list string :=
  ("Using " ++ Number_toString k ++ " points for interpolation:")%string
  :: map (fun p => ("  (x=" ++ toString (x p) ++ ", y=" ++ toString (y p) ++ ")")%string)
         pointsToUse.

(** The lines 137 to 140; the first text begins with a line feed. *)
Definition reportSecret (secret : Z) : list string :=
  [ String "010" "--------------------";
    "Secret (c) Found:";
    toString secret;
    "--------------------" ]%string.

(** [main] as a whole, for the argument [process.argv[2]], absent or
    given. *)
Definition run (filePath : option string) : output :=
  let usage :=
    {| stdout := [];
       stderr := [ErrorText "Please provide the path to the test case JSON file.";
                  ErrorText "Usage: npx ts-node solve.ts <path_to_file>"] |} in
  match filePath with
  | None => usage
  | Some EmptyString => usage
  | Some filePath =>
      match readFileSync filePath with
      | inr e => caught [] (inr e)
      | inl fileContent =>
          match JSON_parse_text fileContent with
          | inr e => caught [] (inr e)
          | inl testCase =>
              let k := k (keys testCase) in
              match getPointsFromJSON testCase with
              | Throw e => caught [] (inl e)
              | Ok allPoints =>
                  let pointsToUse := slice0 allPoints k in
                  let printed := reportPoints k pointsToUse in
                  match findSecret pointsToUse with
                  | Throw e => caught printed (inl e)
                  | Ok secret =>
                      {| stdout := printed ++ reportSecret secret;
                         stderr := [] |}
                  end
              end
          end
      end
  end.

End Driver.

(** ** Notions the statements are written with

    The value of a numeral, the products and the terms of the Lagrange
    formula, polynomials and the selection of the first records are defined
    here on their own, in the words of the specification; the theorems
    relate the program to them. *)

Open Scope string_scope.
Open Scope list_scope.
Open Scope Z_scope.

(** The characters of a string, first to last. *)
Definition chars (s : string) : list ascii := list_ascii_of_string s.

(** The value of a big-endian positional numeral: digit [i] of [n] digits
    weighs [base ^ (n - 1 - i)]. *)
Fixpoint numeralValue (base : Z) (ds : list Z) : Z :=
  match ds with
  | [] => 0
  | d :: ds' => d * base ^ Z.of_nat (List.length ds') + numeralValue base ds'
  end.

(** A character is a digit of radix [base] when it has a place in the
    alphabet and that place is below [base]. *)
Definition isDigitOf (base : Z) (c : ascii) : bool :=
  negb ((digitValue c =? -1) || (digitValue c >=? base)).

(** The points other than the one of index [j]. *)
Definition others (points : list Point) (j : nat) : list Point :=
  firstn j points ++ skipn (S j) points.

Definition product (l : list Z) : Z := fold_right Z.mul 1 l.

Definition sum (l : list Z) : Z := fold_right Z.add 0 l.

(** numerator_j: the product of (0 - x_m) over m <> j. *)
Definition lagrangeNumerator (points : list Point) (j : nat) : Z :=
  product (map (fun p => - x p) (others points j)).

(** denominator_j: the product of (x_j - x_m) over m <> j. *)
Definition lagrangeDenominator (points : list Point) (j : nat) : Z :=
  product (map (fun p => x (at_ points j) - x p) (others points j)).

(** term_j as the program obtains it: the BigInt quotient, rounded toward
    zero, of y_j * numerator_j by denominator_j. *)
Definition lagrangeTerm (points : list Point) (j : nat) : Z :=
  Z.quot (y (at_ points j) * lagrangeNumerator points j)
         (lagrangeDenominator points j).

(** A polynomial with integer coefficients, constant term first, and its
    value at a point. *)
Fixpoint evalPoly (coeffs : list Z) (x0 : Z) : Z :=
  match coeffs with
  | [] => 0
  | c :: cs => c + x0 * evalPoly cs x0
  end.

(** The functions that a polynomial with at most [n] coefficients, that
    is of degree below [n], computes. *)
Definition polynomialBelow (n : nat) (F : Z -> Z) : Prop :=
  exists p, (List.length p <= n)%nat /\ forall z, evalPoly p z = F z.

(** The numerator of the basis polynomial of index [j], at any point:
    the product of (z - x_m) over m <> j. *)
Definition basisAt (points : list Point) (j : nat) (z : Z) : Z :=
  product (map (fun p => z - x p) (others points j)).

(** The shares of a polynomial at the given abscissas. *)
Definition sharesOf (coeffs : list Z) (xs : list Z) : list Point :=
  map (fun x0 => {| x := x0; y := evalPoly coeffs x0 |}) xs.

(** One record decoded on its own, and a list of records decoded in
    turn. *)
Definition decodeRecord (r : string * Share) : completion Point :=
  x <- BigInt_ofString (fst r) ;;
  y <- parseBigIntWithBase (value (snd r)) (parseInt10 (base (snd r))) ;;
  Ok {| x := x; y := y |}.

Fixpoint decodeRecords (rs : list (string * Share)) : completion (list Point) :=
  match rs with
  | [] => Ok []
  | r :: rs' =>
      p <- decodeRecord r ;;
      ps <- decodeRecords rs' ;;
      Ok (p :: ps)
  end.


(** The index of a record whose identifier is an array index. *)
Definition indexOfRecord {A : Type} (r : string * A) : Z :=
  match arrayIndex (fst r) with
  | Some i => i
  | None => -1
  end.

(** Records in ascending order of index. *)
Definition ascending {A : Type} (rs : list (string * A)) : Prop :=
  StronglySorted (fun r1 r2 => indexOfRecord r1 <= indexOfRecord r2) rs.

(** The term of a point, with the products taken over the points of
    another abscissa, wherever they stand in the list. *)
Definition termOf (points : list Point) (p : Point) : Z :=
  let rest := filter (fun q => negb (x q =? x p)) points in
  Z.quot (y p * product (map (fun q => - x q) rest))
         (product (map (fun q => x p - x q) rest)).

(** The abscissas 1, 2, ..., k. *)
Definition consecutive (k : nat) : list Z := map Z.of_nat (seq 1 k).

(** The number of ways to choose [m] things among [n0]. *)
Fixpoint binomial (n0 m : nat) : nat :=
  match n0, m with
  | _, O => 1
  | O, S _ => 0
  | S n', S m' => binomial n' m' + binomial n' m
  end.

(** ** Proof steps used throughout *)

(** A fact about one character, settled by trying all 256 of them. *)
Ltac every_char c :=
  destruct c as [[] [] [] [] [] [] [] []]; vm_compute in *; intuition congruence.

(** The abscissas of given points, or the identifiers of given records, are
    pairwise distinct. *)
Ltac distinct_by_computation :=
  repeat constructor; cbn; intuition discriminate.

(** ** The base decoder *)

Lemma digitValue_range (c : ascii) : -1 <= digitValue c < 36.
Proof.
  every_char c.
Qed.

Lemma isDigitOf_spec (base : Z) (c : ascii) :
  isDigitOf base c = true <-> 0 <= digitValue c < base.
Proof.
  unfold isDigitOf. pose proof (digitValue_range c) as R.
  rewrite negb_true_iff, orb_false_iff, Z.eqb_neq, Z.geb_leb, Z.leb_gt. lia.
Qed.

(** The loop stops at the first character that is no digit of the radix,
    and otherwise extends the accumulator by the value of the numeral. *)
Lemma parseLoop_spec (base : Z) (s : string) (acc : Z) :
  parseLoop s base acc =
  match find (fun c => negb (isDigitOf base c)) (chars s) with
  | Some c => Throw (Error_InvalidCharacter (toLowerCase c) base)
  | None =>
      Ok (acc * base ^ Z.of_nat (List.length (chars s))
          + numeralValue base (map digitValue (chars s)))
  end.
Proof.
  revert acc. induction s as [|c rest IH]; intros acc.
  - cbn. f_equal. lia.
  - change (chars (String c rest)) with (c :: chars rest).
    cbn [parseLoop find map numeralValue List.length].
    fold (digitValue c). unfold isDigitOf at 1. rewrite negb_involutive.
    destruct ((digitValue c =? -1) || (digitValue c >=? base)); [reflexivity|].
    rewrite IH. destruct (find _ (chars rest)); [reflexivity|].
    f_equal. rewrite Nat2Z.inj_succ, Z.pow_succ_r by lia.
    rewrite length_map. ring.
Qed.

Lemma find_none_digits (base : Z) (l : list ascii) :
  (forall c, In c l -> 0 <= digitValue c < base) ->
  find (fun c => negb (isDigitOf base c)) l = None.
Proof.
  intros H. induction l as [|c l IH]; simpl; [reflexivity|].
  assert (isDigitOf base c = true) as ->
      by (apply isDigitOf_spec, H; now left).
  simpl. apply IH. intros d Hd. apply H. now right.
Qed.

(** The digits of a given string can be checked by computation. *)
Lemma digits_by_computation (base : Z) (s : string) :
  forallb (isDigitOf base) (chars s) = true ->
  forall c, In c (chars s) -> 0 <= digitValue c < base.
Proof.
  intros H c Hc. apply isDigitOf_spec.
  rewrite forallb_forall in H. now apply H.
Qed.

(** Where [find] stops: everything before is a digit, the element found is
    not. *)
Lemma find_some_split (base : Z) (l : list ascii) :
  (exists c, In c l /\ isDigitOf base c = false) ->
  exists pre c post,
    l = pre ++ c :: post /\
    Forall (fun d => isDigitOf base d = true) pre /\
    isDigitOf base c = false /\
    find (fun c => negb (isDigitOf base c)) l = Some c.
Proof.
  induction l as [|a l IH]; intros (c & Hin & Hc); [destruct Hin|].
  destruct (isDigitOf base a) eqn:Ha.
  - destruct IH as (pre & c' & post & -> & Hpre & Hc' & Hfind).
    { exists c. split; [|exact Hc]. destruct Hin as [->|]; [congruence|assumption]. }
    exists (a :: pre), c', post. simpl. rewrite Ha. simpl. auto.
  - exists [], a, l. simpl. rewrite Ha. simpl. auto.
Qed.

Lemma parseLoop_lower (base : Z) (s s' : string) (acc : Z) :
  map toLowerCase (chars s') = map toLowerCase (chars s) ->
  parseLoop s' base acc = parseLoop s base acc.
Proof.
  revert s' acc. induction s as [|c rest IH]; intros [|c' rest'] acc H;
    simpl in H; try discriminate; [reflexivity|].
  injection H as Hc Hrest. simpl. rewrite Hc.
  destruct (_ || _); [reflexivity|]. now apply IH.
Qed.

Lemma parseBigIntWithBase_spec (s : string) (base : Z) :
  parseBigIntWithBase s (Num base) =
  match find (fun c => negb (isDigitOf base c)) (chars s) with
  | Some c => Throw (Error_InvalidCharacter (toLowerCase c) base)
  | None => Ok (numeralValue base (map digitValue (chars s)))
  end.
Proof.
  unfold parseBigIntWithBase. cbn [BigInt bind]. rewrite parseLoop_spec.
  destruct (find _ _); reflexivity.
Qed.

Lemma isDigitOf_false (base : Z) (c : ascii) :
  isDigitOf base c = false <-> digitValue c = -1 \/ digitValue c >= base.
Proof.
  unfold isDigitOf.
  rewrite negb_false_iff, orb_true_iff, Z.eqb_eq, Z.geb_leb, Z.leb_le. lia.
Qed.

(** C2.  A non-empty string whose characters are all digits of a radix
    [base] of 2 .. 36 decodes to the exact value of the big-endian numeral
    in that radix, and the outcome depends on the characters only up to
    case. *)
Theorem C2_decode_is_positional_value (s : string) (base : Z) :
  s <> "" ->
  2 <= base <= 36 ->
  (forall c, In c (chars s) -> 0 <= digitValue c < base) ->
  parseBigIntWithBase s (Num base)
    = Ok (numeralValue base (map digitValue (chars s))) /\
  (forall s', map toLowerCase (chars s') = map toLowerCase (chars s) ->
     parseBigIntWithBase s' (Num base) = parseBigIntWithBase s (Num base)).
Proof.
  intros _ _ Hdigits. split.
  - rewrite parseBigIntWithBase_spec, find_none_digits by exact Hdigits.
    reflexivity.
  - intros s' Hs'. unfold parseBigIntWithBase. cbn [BigInt bind].
    now apply parseLoop_lower.
Qed.

(** The two decodings the specification quotes, obtained from C2, and the
    second one again in capitals. *)
Lemma C2_decode_examples :
  parseBigIntWithBase "111" (Num 2) = Ok 7 /\
  parseBigIntWithBase "aed7" (Num 16) = Ok 44759 /\
  parseBigIntWithBase "AED7" (Num 16) = Ok 44759.
Proof.
  assert (D2 : forall c, In c (chars "111") -> 0 <= digitValue c < 2)
    by (apply digits_by_computation; reflexivity).
  assert (D16 : forall c, In c (chars "aed7") -> 0 <= digitValue c < 16)
    by (apply digits_by_computation; reflexivity).
  destruct (@C2_decode_is_positional_value "111" 2) as [V2 _];
    [discriminate | lia | exact D2 |].
  destruct (@C2_decode_is_positional_value "aed7" 16) as [V16 C16];
    [discriminate | lia | exact D16 |].
  split; [exact V2 | split; [exact V16 |]].
  rewrite (C16 "AED7" eq_refl). exact V16.
Defined.

(** C7.  For a radix of 2 .. 36, a string holding a character outside the
    alphabet, or one whose place in the alphabet is not below the radix,
    is rejected: the decoder throws its error at the first such character,
    and the error carries that character, in lower case, and the radix. *)
Theorem C7_decode_rejects_invalid_digit (s : string) (base : Z) :
  2 <= base <= 36 ->
  (exists c, In c (chars s) /\ (digitValue c = -1 \/ digitValue c >= base)) ->
  exists pre c post,
    chars s = pre ++ c :: post /\
    (forall d, In d pre -> 0 <= digitValue d < base) /\
    (digitValue c = -1 \/ digitValue c >= base) /\
    parseBigIntWithBase s (Num base)
      = Throw (Error_InvalidCharacter (toLowerCase c) base).
Proof.
  intros _ (c & Hin & Hbad).
  destruct (@find_some_split base (chars s)) as (pre & c' & post & E & Hpre & Hc' & Hfind).
  { exists c. split; [exact Hin|]. now apply isDigitOf_false. }
  exists pre, c', post. split; [exact E|]. split; [|split].
  - intros d Hd. apply isDigitOf_spec. rewrite Forall_forall in Hpre.
    now apply Hpre.
  - now apply isDigitOf_false.
  - rewrite parseBigIntWithBase_spec, Hfind. reflexivity.
Qed.

(** C7 at the string "12-4" in radix 10. *)
Lemma C7_decode_rejects_witness :
  exists pre c post,
    chars "12-4" = pre ++ c :: post /\
    (forall d, In d pre -> 0 <= digitValue d < 10) /\
    (digitValue c = -1 \/ digitValue c >= 10) /\
    parseBigIntWithBase "12-4" (Num 10)
      = Throw (Error_InvalidCharacter (toLowerCase c) 10).
Proof.
  apply C7_decode_rejects_invalid_digit; [lia|].
  exists "-"%char. split; [cbv; tauto | left; reflexivity].
Defined.

(** decode("a", 10) fails; a capital is reported in lower case; the first
    offending character is the one reported. *)
Lemma decode_rejects_examples :
  parseBigIntWithBase "a" (Num 10) = Throw (Error_InvalidCharacter "a" 10) /\
  parseBigIntWithBase "7F" (Num 10) = Throw (Error_InvalidCharacter "f" 10) /\
  parseBigIntWithBase "12-4z" (Num 10) = Throw (Error_InvalidCharacter "-" 10).
Proof. repeat split. Qed.

(** C9, as the specification has it, fails: not every base will do.  The
    decoder takes a number, and for a share whose base is "abc", or empty,
    [parseInt] hands it [NaN]; then [BigInt(base)] throws before the loop
    is reached, also for the empty string, and no point is decoded. *)
Lemma C9_empty_string_with_NaN_base :
  parseInt10 "abc" = NaN /\
  parseInt10 "" = NaN /\
  parseBigIntWithBase "" NaN = Throw RangeError_NotAnInteger /\
  (forall v, parseBigIntWithBase "" NaN <> Ok v) /\
  getPointsFromJSON
    (testCaseOf {| n := 1; k := 1 |} [("1", {| base := "abc"; value := "" |})])
  = Throw RangeError_NotAnInteger.
Proof.
  repeat split. intros v H. discriminate H.
Qed.

(** C9, amended.  Whatever the integer taken for the radix, in 2 .. 36 or
    not, the empty string decodes to 0: the loop body never runs.  For a
    number that is no integer, [NaN] or an infinity, the conversion of the
    base throws a range error before the loop, and the empty string is not
    decoded either. *)
Theorem C9_decode_empty_string_integer_base :
  (forall z, parseBigIntWithBase "" (Num z) = Ok 0) /\
  parseBigIntWithBase "" NaN = Throw RangeError_NotAnInteger /\
  (forall negative,
     parseBigIntWithBase "" (Infinity negative) = Throw RangeError_NotAnInteger).
Proof.
  unfold parseBigIntWithBase. split; [|split].
  - intros z. cbn [BigInt bind].
    (* the loop over no character returns the accumulator as it started *)
    cbn [parseLoop]. reflexivity.
  - cbn [BigInt bind]. reflexivity.
  - intros negative. cbn [BigInt bind]. reflexivity.
Qed.

(** C6, as the specification has it, fails: radix 37 is accepted.  The
    digit "1" decodes to 1, and a record whose shares are written in
    radix 37 ("10" is 37, "1z" is 72) runs to the end and prints the
    secret 2. *)
Lemma C6_radix_37_is_accepted :
  parseBigIntWithBase "1" (Num 37) = Ok 1 /\
  (forall e, parseBigIntWithBase "1" (Num 37) <> Throw e) /\
  main (testCaseOf {| n := 2; k := 2 |}
          [("1", {| base := "37"; value := "10" |});
           ("2", {| base := "37"; value := "1z" |})]) = Ok 2.
Proof.
  split; [reflexivity | split; [|reflexivity]].
  intros e H. discriminate H.
Qed.

(** C6, amended.  The decoder has no check of the radix and no error of
    its own for it.  For an integer radix outside 2 .. 36, the only failure
    is the one of an invalid character; above 36 every string of letters and
    digits decodes to the value of its numeral; at 0 or below every
    non-empty string is rejected at its first character. *)
Theorem C6_decode_outside_radix_range (s : string) (base : Z) :
  base < 2 \/ 36 < base ->
  ((exists v, parseBigIntWithBase s (Num base) = Ok v) \/
   (exists c, In c (chars s) /\
      (digitValue c = -1 \/ digitValue c >= base) /\
      parseBigIntWithBase s (Num base)
        = Throw (Error_InvalidCharacter (toLowerCase c) base))) /\
  (36 < base ->
   (forall c, In c (chars s) -> digitValue c <> -1) ->
   parseBigIntWithBase s (Num base)
     = Ok (numeralValue base (map digitValue (chars s)))) /\
  (base <= 0 ->
   forall c rest, s = String c rest ->
   parseBigIntWithBase s (Num base)
     = Throw (Error_InvalidCharacter (toLowerCase c) base)).
Proof.
  intros _. split; [|split].
  - rewrite parseBigIntWithBase_spec.
    destruct (find _ (chars s)) as [c|] eqn:F.
    + right. exists c. apply find_some in F as [Hin Hc].
      rewrite negb_true_iff in Hc. split; [exact Hin|].
      split; [now apply isDigitOf_false | reflexivity].
    + left. eexists. reflexivity.
  - intros Hbase Halnum.
    rewrite parseBigIntWithBase_spec, find_none_digits; [reflexivity|].
    intros c Hc. pose proof (digitValue_range c). specialize (Halnum c Hc). lia.
  - intros Hbase c rest ->.
    rewrite parseBigIntWithBase_spec.
    change (chars (String c rest)) with (c :: chars rest). cbn [find].
    assert (isDigitOf base c = false) as ->; [|reflexivity].
    apply isDigitOf_false. pose proof (digitValue_range c). lia.
Qed.

(** C6, amended, at radix 37 and the string "1z". *)
Lemma C6_decode_outside_radix_range_witness :
  parseBigIntWithBase "1z" (Num 37) = Ok 72.
Proof.
  destruct (@C6_decode_outside_radix_range "1z" 37) as (_ & V & _);
    [right; lia|].
  rewrite V; [reflexivity | lia |].
  intros c H.
  assert (0 <= digitValue c < 37)
    by (revert c H; apply digits_by_computation; reflexivity).
  lia.
Defined.

(** ** The Lagrange evaluation *)

Lemma product_zero (l : list Z) : In 0 l -> product l = 0.
Proof.
  induction l as [|a l IH]; intros H; [destruct H|].
  cbn [product fold_right]. destruct H as [->|H]; [reflexivity|].
  fold (product l). rewrite IH by exact H. ring.
Qed.

Lemma product_nonzero (l : list Z) : (forall z, In z l -> z <> 0) -> product l <> 0.
Proof.
  induction l as [|a l IH]; intros H; cbn [product fold_right]; [discriminate|].
  fold (product l). apply Z.neq_mul_0. split.
  - apply H. now left.
  - apply IH. intros z Hz. apply H. now right.
Qed.

Lemma skipn_nth_cons (A : Type) (d : A) (l : list A) (a : nat) :
  (a < List.length l)%nat -> skipn a l = nth a l d :: skipn (S a) l.
Proof.
  revert a. induction l as [|p l IH]; intros a H; cbn [List.length] in H; [lia|].
  destruct a as [|a]; [reflexivity|].
  cbn [skipn nth]. rewrite IH by lia. reflexivity.
Qed.

Lemma map_at_seq (points : list Point) (n a : nat) :
  (a + n <= List.length points)%nat ->
  map (at_ points) (seq a n) = firstn n (skipn a points).
Proof.
  revert a. induction n as [|n IH]; intros a H; [reflexivity|].
  cbn [seq map]. rewrite IH by lia.
  rewrite (@skipn_nth_cons _ {| x := 0; y := 0 |} points a) by lia.
  reflexivity.
Qed.

Lemma filter_seq_below (j a n : nat) :
  (a + n <= j)%nat ->
  filter (fun m => negb (j =? m)%nat) (seq a n) = seq a n.
Proof.
  revert a. induction n as [|n IH]; intros a H; [reflexivity|].
  cbn [seq filter]. destruct (Nat.eqb_spec j a) as [E|E]; [lia|].
  cbn [negb]. rewrite IH by lia. reflexivity.
Qed.

Lemma filter_seq_above (j a n : nat) :
  (j < a)%nat ->
  filter (fun m => negb (j =? m)%nat) (seq a n) = seq a n.
Proof.
  revert a. induction n as [|n IH]; intros a H; [reflexivity|].
  cbn [seq filter]. destruct (Nat.eqb_spec j a) as [E|E]; [lia|].
  cbn [negb]. rewrite IH by lia. reflexivity.
Qed.

(** The indices the inner loop does not skip are those of the other
    points, in order. *)
Lemma others_by_index (points : list Point) (j : nat) :
  (j < List.length points)%nat ->
  map (at_ points)
      (filter (fun m => negb (j =? m)%nat) (seq 0 (List.length points)))
  = others points j.
Proof.
  intros H. unfold others.
  replace (List.length points) with (j + S (List.length points - S j))%nat at 1 by lia.
  rewrite seq_app, filter_app. cbn [seq filter Nat.add].
  rewrite Nat.eqb_refl. cbn [negb].
  rewrite filter_seq_below, filter_seq_above by lia.
  rewrite map_app, !map_at_seq by lia.
  change (skipn 0 points) with points. f_equal.
  apply firstn_all2. rewrite length_skipn. lia.
Qed.

Lemma basisLoop_acc (points : list Point) (j : nat) (ms : list nat) (nu de : Z) :
  basisLoop points j ms (nu, de) =
  (nu * product (map (fun p => - x p)
                   (map (at_ points) (filter (fun m => negb (j =? m)%nat) ms))),
   de * product (map (fun p => x (at_ points j) - x p)
                   (map (at_ points) (filter (fun m => negb (j =? m)%nat) ms)))).
Proof.
  unfold basisLoop. revert nu de. induction ms as [|m ms IH]; intros nu de.
  - cbn. f_equal; ring.
  - cbn [fold_left filter]. destruct (negb (j =? m)%nat).
    + rewrite IH. cbn [map]. unfold product. cbn [fold_right]. f_equal; ring.
    + apply IH.
Qed.

(** The inner loop computes numerator_j and denominator_j. *)
Lemma basisLoop_spec (points : list Point) (j : nat) :
  (j < List.length points)%nat ->
  basisLoop points j (seq 0 (List.length points)) (1, 1)
  = (lagrangeNumerator points j, lagrangeDenominator points j).
Proof.
  intros H. rewrite basisLoop_acc, others_by_index by exact H.
  unfold lagrangeNumerator, lagrangeDenominator. f_equal; ring.
Qed.

Lemma in_others (points : list Point) (j : nat) (p : Point) :
  (j < List.length points)%nat ->
  In p (others points j) <->
  exists m, (m < List.length points)%nat /\ m <> j /\ p = at_ points m.
Proof.
  intros H. rewrite <- others_by_index by exact H. rewrite in_map_iff.
  split.
  - intros (m & <- & Hm). apply filter_In in Hm as [Hm Hne].
    apply in_seq in Hm. exists m. repeat split; [lia|].
    intros ->. rewrite Nat.eqb_refl in Hne. discriminate.
  - intros (m & Hm & Hne & ->). exists m. split; [reflexivity|].
    apply filter_In. split; [apply in_seq; lia|].
    destruct (Nat.eqb_spec j m); [congruence|reflexivity].
Qed.

Lemma x_at (points : list Point) (j : nat) :
  x (at_ points j) = nth j (map x points) 0.
Proof. unfold at_. now rewrite <- (map_nth x). Qed.

(** With pairwise distinct abscissas no denominator vanishes. *)
Lemma lagrangeDenominator_nonzero (points : list Point) (j : nat) :
  NoDup (map x points) ->
  (j < List.length points)%nat ->
  lagrangeDenominator points j <> 0.
Proof.
  intros ND H. apply product_nonzero. intros z Hz.
  apply in_map_iff in Hz as (p & <- & Hp).
  apply in_others in Hp as (m & Hm & Hne & ->); [|exact H].
  rewrite !x_at. intros E. apply Hne.
  rewrite (NoDup_nth (map x points) 0) in ND.
  apply ND; rewrite ?length_map; try lia.
Qed.

(** Two points with the same abscissa make a denominator vanish. *)
Lemma lagrangeDenominator_zero (points : list Point) (i j : nat) :
  (i < List.length points)%nat ->
  (j < List.length points)%nat ->
  i <> j ->
  x (at_ points i) = x (at_ points j) ->
  lagrangeDenominator points j = 0.
Proof.
  intros Hi Hj Hne E. apply product_zero. apply in_map_iff.
  exists (at_ points i). split; [lia|].
  apply in_others; [exact Hj|]. exists i. auto.
Qed.

Lemma secretLoop_cons (points : list Point) (j : nat) (js : list nat) (secret : Z) :
  (j < List.length points)%nat ->
  secretLoop points (j :: js) secret =
  (term <- div (y (at_ points j) * lagrangeNumerator points j)
               (lagrangeDenominator points j) ;;
   secretLoop points js (secret + term)).
Proof.
  intros H. cbn [secretLoop]. rewrite basisLoop_spec by exact H. reflexivity.
Qed.

(** While no denominator vanishes the loop adds up the terms. *)
Lemma secretLoop_sum (points : list Point) (js : list nat) (secret : Z) :
  (forall j, In j js ->
     (j < List.length points)%nat /\ lagrangeDenominator points j <> 0) ->
  secretLoop points js secret
  = Ok (secret + sum (map (lagrangeTerm points) js)).
Proof.
  revert secret. induction js as [|j js IH]; intros secret H.
  - cbn. f_equal. lia.
  - destruct (H j (or_introl eq_refl)) as [Hj Hd].
    rewrite secretLoop_cons by exact Hj. unfold div.
    apply Z.eqb_neq in Hd. rewrite Hd. cbn [bind].
    rewrite IH by (intros i Hi; apply H; now right).
    cbn [map]. unfold sum. cbn [fold_right]. fold (lagrangeTerm points j).
    f_equal. ring.
Qed.

(** A vanishing denominator anywhere on the way stops the loop. *)
Lemma secretLoop_throws (points : list Point) (js : list nat) (secret : Z) :
  (forall j, In j js -> (j < List.length points)%nat) ->
  (exists j, In j js /\ lagrangeDenominator points j = 0) ->
  secretLoop points js secret = Throw RangeError_DivisionByZero.
Proof.
  revert secret. induction js as [|j js IH]; intros secret Hlt (j0 & Hin & Hz).
  - destruct Hin.
  - rewrite secretLoop_cons by (apply Hlt; now left). unfold div.
    destruct (Z.eqb_spec (lagrangeDenominator points j) 0) as [E|E];
      [reflexivity|].
    cbn [bind]. apply IH.
    + intros i Hi. apply Hlt. now right.
    + exists j0. split; [|exact Hz]. destruct Hin as [->|Hin]; [contradiction|exact Hin].
Qed.

Lemma findSecret_distinct (points : list Point) :
  NoDup (map x points) ->
  findSecret points
  = Ok (sum (map (lagrangeTerm points) (seq 0 (List.length points)))).
Proof.
  intros ND. unfold findSecret. rewrite secretLoop_sum; [reflexivity|].
  intros j Hj. apply in_seq in Hj. split; [lia|].
  apply lagrangeDenominator_nonzero; [exact ND|lia].
Qed.

(** ** Polynomials and their roots *)

Lemma evalPoly_add (p1 p2 : list Z) :
  exists r,
    (List.length r <= Nat.max (List.length p1) (List.length p2))%nat /\
    forall z, evalPoly r z = evalPoly p1 z + evalPoly p2 z.
Proof.
  revert p2. induction p1 as [|c1 p1 IH]; intros p2.
  - exists p2. split; [cbn; lia|]. intros z. cbn. lia.
  - destruct p2 as [|c2 p2].
    + exists (c1 :: p1). split; [cbn; lia|]. intros z. cbn. lia.
    + destruct (IH p2) as (r & L & E). exists ((c1 + c2) :: r).
      split; [cbn [List.length]; lia|].
      intros z. cbn [evalPoly]. rewrite E. ring.
Qed.

Lemma evalPoly_scale (c : Z) (p : list Z) (z : Z) :
  evalPoly (map (Z.mul c) p) z = c * evalPoly p z.
Proof.
  induction p as [|a p IH]; cbn [map evalPoly]; [ring|]. rewrite IH. ring.
Qed.

Lemma polynomialBelow_ext (n : nat) (F G : Z -> Z) :
  (forall z, F z = G z) -> polynomialBelow n F -> polynomialBelow n G.
Proof.
  intros E (p & L & H). exists p. split; [exact L|].
  intros z. now rewrite H.
Qed.

Lemma polynomialBelow_mono (n m : nat) (F : Z -> Z) :
  (n <= m)%nat -> polynomialBelow n F -> polynomialBelow m F.
Proof. intros Le (p & L & H). exists p. split; [lia|exact H]. Qed.

Lemma polynomialBelow_add (n : nat) (F G : Z -> Z) :
  polynomialBelow n F -> polynomialBelow n G ->
  polynomialBelow n (fun z => F z + G z).
Proof.
  intros (p1 & L1 & H1) (p2 & L2 & H2).
  destruct (evalPoly_add p1 p2) as (r & L & E).
  exists r. split; [lia|]. intros z. now rewrite E, H1, H2.
Qed.

Lemma polynomialBelow_scale (n : nat) (c : Z) (F : Z -> Z) :
  polynomialBelow n F -> polynomialBelow n (fun z => c * F z).
Proof.
  intros (p & L & H). exists (map (Z.mul c) p).
  split; [now rewrite length_map|].
  intros z. now rewrite evalPoly_scale, H.
Qed.

Lemma polynomialBelow_linear (n : nat) (a : Z) (F : Z -> Z) :
  polynomialBelow n F -> polynomialBelow (S n) (fun z => (z - a) * F z).
Proof.
  intros H.
  apply (@polynomialBelow_ext _ (fun z => z * F z + - a * F z));
    [intros z; ring|].
  apply polynomialBelow_add.
  - destruct H as (p & L & E). exists (0 :: p).
    split; [cbn [List.length]; lia|]. intros z. cbn [evalPoly]. now rewrite E.
  - apply (@polynomialBelow_mono n); [lia|]. now apply polynomialBelow_scale.
Qed.

(** Division by (z - a): the quotient has one coefficient less and the
    remainder is the value at [a]. *)
Lemma evalPoly_factor (p : list Z) (a : Z) :
  exists q,
    (List.length q <= Nat.pred (List.length p))%nat /\
    forall z, evalPoly p z = (z - a) * evalPoly q z + evalPoly p a.
Proof.
  induction p as [|c p (q' & L' & E')].
  - exists []. split; [cbn; lia|]. intros z. cbn. ring.
  - destruct (evalPoly_add p (map (Z.mul a) q')) as (q & L & E).
    exists q. split; [rewrite length_map in L; cbn [List.length Nat.pred]; lia|].
    intros z. cbn [evalPoly]. rewrite E, evalPoly_scale.
    rewrite (E' z) at 1. ring_simplify.
    rewrite (E' z). ring.
Qed.

(** A polynomial with no more coefficients than it has distinct roots
    vanishes everywhere. *)
Lemma evalPoly_roots (xs : list Z) :
  NoDup xs ->
  forall p, (List.length p <= List.length xs)%nat ->
            (forall a, In a xs -> evalPoly p a = 0) ->
            forall z, evalPoly p z = 0.
Proof.
  induction 1 as [|a xs Na ND IH]; intros p L R z.
  - destruct p; [reflexivity|cbn in L; lia].
  - destruct (evalPoly_factor p a) as (q & Lq & E).
    rewrite E, (R a (or_introl eq_refl)), (IH q); [ring| |].
    + cbn [List.length] in L. lia.
    + intros b Hb.
      pose proof (R b (or_intror Hb)) as Rb.
      rewrite E, (R a (or_introl eq_refl)) in Rb.
      assert (b - a <> 0) by (intros Eq; apply Na; now replace a with b by lia).
      nia.
Qed.

Lemma polynomialBelow_roots (n : nat) (F : Z -> Z) (xs : list Z) :
  polynomialBelow n F ->
  NoDup xs -> (n <= List.length xs)%nat ->
  (forall a, In a xs -> F a = 0) ->
  forall z, F z = 0.
Proof.
  intros (p & L & H) ND Le R z. rewrite <- H.
  apply (evalPoly_roots ND); [lia|]. intros a Ha. rewrite H. now apply R.
Qed.

(** ** What the Lagrange evaluation achieves when its divisions are exact *)

Lemma sum_map_scale (c : Z) (g : nat -> Z) (js : list nat) :
  sum (map (fun j => c * g j) js) = c * sum (map g js).
Proof.
  unfold sum. induction js as [|j js IH]; cbn [map fold_right]; [ring|].
  rewrite IH. ring.
Qed.

Lemma sum_single (g : nat -> Z) (js : list nat) (i : nat) :
  NoDup js -> In i js ->
  (forall j, In j js -> j <> i -> g j = 0) ->
  sum (map g js) = g i.
Proof.
  unfold sum. induction 1 as [|j js Nj ND IH]; intros Hi Z0; [destruct Hi|].
  cbn [map fold_right]. destruct Hi as [->|Hi].
  - assert (fold_right Z.add 0 (map g js) = 0) as ->; [|ring].
    clear IH. induction js as [|m js IHjs]; [reflexivity|].
    cbn [map fold_right]. rewrite (Z0 m).
    + rewrite IHjs; [ring| | |].
      * intros H. apply Nj. now right.
      * now apply NoDup_cons_iff in ND.
      * intros j Hj. apply Z0. destruct Hj as [->|Hj]; [now left|now right; right].
    + now right; left.
    + intros ->. apply Nj. now left.
  - rewrite (Z0 j); [|now left|intros ->; contradiction].
    rewrite IH; [ring|exact Hi|]. intros m Hm. apply Z0. now right.
Qed.

Lemma polynomialBelow_sum (n0 : nat) (G : nat -> Z -> Z) (js : list nat) :
  (forall j, In j js -> polynomialBelow n0 (G j)) ->
  polynomialBelow n0 (fun z => sum (map (fun j => G j z) js)).
Proof.
  unfold sum. induction js as [|j js IH]; intros H; cbn [map fold_right].
  - exists []. split; [cbn; lia|reflexivity].
  - apply polynomialBelow_add; [apply H; now left|].
    apply IH. intros m Hm. apply H. now right.
Qed.

Lemma product_split (D : nat -> Z) (js : list nat) (j : nat) :
  NoDup js -> In j js ->
  product (map D js)
  = D j * product (map D (filter (fun m => negb (j =? m)%nat) js)).
Proof.
  unfold product. induction 1 as [|m js Nm ND IH]; intros Hj; [destruct Hj|].
  cbn [map fold_right filter]. destruct Hj as [->|Hj].
  - rewrite Nat.eqb_refl. cbn [negb]. f_equal. f_equal.
    clear IH ND. induction js as [|i js IHjs]; [reflexivity|].
    cbn [filter]. destruct (Nat.eqb_spec j i) as [->|NE].
    + exfalso. apply Nm. now left.
    + cbn [negb map]. f_equal. apply IHjs. intros H. apply Nm. now right.
  - destruct (Nat.eqb_spec j m) as [->|NE]; [contradiction|].
    cbn [negb map fold_right]. rewrite IH by exact Hj. ring.
Qed.

Lemma others_length (points : list Point) (j : nat) :
  (j < List.length points)%nat ->
  List.length (others points j) = Nat.pred (List.length points).
Proof.
  intros H. unfold others.
  rewrite length_app, length_firstn, length_skipn. lia.
Qed.

Lemma basisAt_polynomial (points : list Point) (j : nat) :
  (j < List.length points)%nat ->
  polynomialBelow (List.length points) (basisAt points j).
Proof.
  intros H. unfold basisAt.
  replace (List.length points) with (S (List.length (others points j)))
    by (rewrite others_length; lia).
  unfold product. induction (others points j) as [|p l IH]; cbn [map fold_right List.length].
  - exists [1]. split; [cbn; lia|]. intros z. cbn [evalPoly]. ring.
  - now apply polynomialBelow_linear.
Qed.

Lemma basisAt_0 (points : list Point) (j : nat) :
  basisAt points j 0 = lagrangeNumerator points j.
Proof.
  unfold basisAt, lagrangeNumerator. apply (f_equal product), map_ext.
  intros p. ring.
Qed.

Lemma basisAt_own (points : list Point) (j : nat) :
  basisAt points j (x (at_ points j)) = lagrangeDenominator points j.
Proof. reflexivity. Qed.

Lemma basisAt_other (points : list Point) (i j : nat) :
  (i < List.length points)%nat -> (j < List.length points)%nat -> j <> i ->
  basisAt points j (x (at_ points i)) = 0.
Proof.
  intros Hi Hj NE. apply product_zero, in_map_iff.
  exists (at_ points i). split; [ring|].
  apply in_others; [exact Hj|]. exists i. auto.
Qed.

(** When the denominator divides, the term is the exact quotient. *)
Lemma lagrangeTerm_exact (points : list Point) (j : nat) :
  lagrangeDenominator points j <> 0 ->
  (lagrangeDenominator points j
     | y (at_ points j) * lagrangeNumerator points j) ->
  lagrangeTerm points j * lagrangeDenominator points j
  = y (at_ points j) * lagrangeNumerator points j.
Proof.
  intros Hd Hdiv. unfold lagrangeTerm.
  rewrite Z.mul_comm. symmetry. apply Z.quot_exact; [exact Hd|].
  now apply Z.rem_divide.
Qed.

(** Shares of a polynomial with no more coefficients than there are
    points, at distinct abscissas: when every division is exact the
    program returns the constant term. *)
Lemma findSecret_exact_is_constant_term (f : list Z) (points : list Point) :
  NoDup (map x points) ->
  (List.length f <= List.length points)%nat ->
  (forall p, In p points -> y p = evalPoly f (x p)) ->
  (forall j, (j < List.length points)%nat ->
     (lagrangeDenominator points j
        | y (at_ points j) * lagrangeNumerator points j)) ->
  findSecret points = Ok (evalPoly f 0).
Proof.
  intros ND Lf Hy Hdiv. rewrite findSecret_distinct by exact ND. f_equal.
  set (js := seq 0 (List.length points)).
  set (D := lagrangeDenominator points).
  set (Q j := product (map D (filter (fun m => negb (j =? m)%nat) js))).
  set (P := product (map D js)).
  assert (Hjs : forall j, In j js <-> (j < List.length points)%nat)
    by (intros j; unfold js; rewrite in_seq; lia).
  assert (HP : P <> 0).
  { apply product_nonzero. intros d Hd. apply in_map_iff in Hd as (j & <- & Hj).
    apply lagrangeDenominator_nonzero; [exact ND|now apply Hjs]. }
  assert (HPQ : forall j, In j js -> P = D j * Q j)
    by (intros j Hj; apply product_split; [apply seq_NoDup|exact Hj]).
  set (G z := P * evalPoly f z
              + -1 * sum (map (fun j => (y (at_ points j) * Q j) * basisAt points j z) js)).
  assert (HG : forall z, G z = 0).
  { apply (@polynomialBelow_roots (List.length points) G (map x points)).
    - apply polynomialBelow_add.
      + apply polynomialBelow_scale. exists f. split; [exact Lf|reflexivity].
      + apply polynomialBelow_scale.
        apply (@polynomialBelow_sum _
                 (fun j z => (y (at_ points j) * Q j) * basisAt points j z)).
        intros j Hj. apply polynomialBelow_scale, basisAt_polynomial.
        now apply Hjs.
    - exact ND.
    - now rewrite length_map.
    - intros a Ha. apply in_map_iff in Ha as (p & <- & Hp).
      apply (In_nth _ _ {| x := 0; y := 0 |}) in Hp as (i & Hi & <-).
      fold (at_ points i). unfold G.
      rewrite (@sum_single _ js i); [|apply seq_NoDup|now apply Hjs|].
      + rewrite basisAt_own. fold (D i).
        rewrite <- (Hy (at_ points i)) by (apply nth_In; exact Hi).
        rewrite (HPQ i) by now apply Hjs. ring.
      + intros j Hj NE. rewrite basisAt_other; [ring|exact Hi| |exact NE].
        now apply Hjs. }
  specialize (HG 0). unfold G in HG.
  rewrite (@map_ext_in _ _ _ (fun j => P * lagrangeTerm points j)) in HG.
  - rewrite sum_map_scale in HG.
    assert (P * (evalPoly f 0 - sum (map (lagrangeTerm points) js)) = 0) as HZ
      by (etransitivity; [|exact HG]; ring).
    apply Z.mul_eq_0 in HZ. destruct HZ as [HZ|HZ]; [contradiction|lia].
  - intros j Hj. rewrite basisAt_0.
    pose proof (Hjs j) as [Hlt _]. specialize (Hlt Hj).
    pose proof (@lagrangeTerm_exact points j
                  (@lagrangeDenominator_nonzero points j ND Hlt) (Hdiv j Hlt)) as T.
    fold (D j) in T. rewrite (HPQ j Hj).
    transitivity (Q j * (y (at_ points j) * lagrangeNumerator points j)); [ring|].
    rewrite <- T. ring.
Qed.

(** ** The claims about the Lagrange evaluation *)

(** C1, at the input where the program departs from it.  The shares of
    f(x) = 1 + x^2 at 1, 3 and 5 are three points with distinct abscissas
    of a polynomial of degree 2, and f(0) = 1; the program answers 0, also
    when run from a record that declares these shares.  The three terms
    are 15/4, -25/2 and 39/4, which add up to 1, and each is rounded toward
    zero before the sum: 3 - 12 + 9.  The shares of the same polynomial at
    1, 2 and 3 do give 1, so the answer depends on the subset chosen. *)
Theorem C1_findSecret_misses_constant_term :
  let f := [1; 0; 1] in
  let points := sharesOf f [1; 3; 5] in
  points = [ {| x := 1; y := 2 |}; {| x := 3; y := 10 |}; {| x := 5; y := 26 |} ] /\
  NoDup (map x points) /\
  (List.length f <= List.length points)%nat /\
  evalPoly f 0 = 1 /\
  map (lagrangeTerm points) [0; 1; 2]%nat = [3; -12; 9] /\
  findSecret points = Ok 0 /\
  main (testCaseOf {| n := 3; k := 3 |}
          [("1", {| base := "10"; value := "2" |});
           ("3", {| base := "10"; value := "10" |});
           ("5", {| base := "10"; value := "26" |})]) = Ok 0 /\
  findSecret (sharesOf f [1; 2; 3]) = Ok 1.
Proof.
  cbv zeta. split; [reflexivity|]. split.
  - distinct_by_computation.
  - repeat split. cbn. lia.
Qed.

(** Any two of the points (1,5), (2,7), (3,9) of f(x) = 3 + 2x, in either
    order, give 3. *)
Lemma findSecret_pairs_of_3_plus_2x :
  let p1 := {| x := 1; y := 5 |} in
  let p2 := {| x := 2; y := 7 |} in
  let p3 := {| x := 3; y := 9 |} in
  sharesOf [3; 2] [1; 2; 3] = [p1; p2; p3] /\
  Forall (fun points => findSecret points = Ok 3)
    [[p1; p2]; [p1; p3]; [p2; p3]; [p2; p1]; [p3; p1]; [p3; p2]].
Proof. cbv zeta. split; [reflexivity|]. repeat constructor. Qed.

(** C4, as the specification has it, fails: among the shares of 1 + x^2
    at 1, 3 and 5 the first has numerator 2 * 15 = 30 and denominator 8,
    which does not divide it, and the program returns a number. *)
Lemma C4_inexact_term_is_not_reported :
  let points := sharesOf [1; 0; 1] [1; 3; 5] in
  NoDup (map x points) /\
  y (at_ points 0) * lagrangeNumerator points 0 = 30 /\
  lagrangeDenominator points 0 = 8 /\
  ~ (lagrangeDenominator points 0
       | y (at_ points 0) * lagrangeNumerator points 0) /\
  findSecret points = Ok 0.
Proof.
  cbv zeta. split; [distinct_by_computation|].
  repeat split. intros [q Hq]. change (30 = q * 8) in Hq. lia.
Qed.

(** C4, amended.  The program has no error for an inexact division: with
    pairwise distinct abscissas it raises nothing and completes with an
    integer, also when some denominator does not divide its numerator. *)
Theorem C4_inexact_division_completes (points : list Point) :
  NoDup (map x points) ->
  (exists j, (j < List.length points)%nat /\
     ~ (lagrangeDenominator points j
          | y (at_ points j) * lagrangeNumerator points j)) ->
  (forall e, findSecret points <> Throw e) /\
  exists secret, findSecret points = Ok secret.
Proof.
  intros ND _. rewrite findSecret_distinct by exact ND. split.
  - intros e H. discriminate H.
  - eexists. reflexivity.
Qed.

(** C4, amended, at the points (1,1) and (3,1). *)
Lemma C4_inexact_division_completes_witness :
  (forall e, findSecret [ {| x := 1; y := 1 |}; {| x := 3; y := 1 |} ] <> Throw e) /\
  exists secret,
    findSecret [ {| x := 1; y := 1 |}; {| x := 3; y := 1 |} ] = Ok secret.
Proof.
  apply C4_inexact_division_completes.
  - distinct_by_computation.
  - exists 0%nat. split; [cbn; lia|].
    intros [q Hq]. change (-3 = q * -2) in Hq. lia.
Defined.

(** C5.  When two points of the list have the same abscissa the program
    stops with the range error of a BigInt division by zero; it returns no
    number. *)
Theorem C5_duplicate_abscissa_throws (points : list Point) (i j : nat) :
  (i < List.length points)%nat ->
  (j < List.length points)%nat ->
  i <> j ->
  x (at_ points i) = x (at_ points j) ->
  findSecret points = Throw RangeError_DivisionByZero /\
  forall secret, findSecret points <> Ok secret.
Proof.
  intros Hi Hj Hne E.
  assert (T : findSecret points = Throw RangeError_DivisionByZero).
  { apply secretLoop_throws.
    - intros m Hm. apply in_seq in Hm. lia.
    - exists j. split; [apply in_seq; lia|].
      now apply (@lagrangeDenominator_zero points i j). }
  split; [exact T|]. intros secret. rewrite T. discriminate.
Qed.

(** C5 at three points of which the first and the last share x = 1. *)
Lemma C5_duplicate_abscissa_throws_witness :
  findSecret [ {| x := 1; y := 5 |}; {| x := 2; y := 7 |}; {| x := 1; y := 9 |} ]
  = Throw RangeError_DivisionByZero.
Proof.
  apply (@C5_duplicate_abscissa_throws _ 0%nat 2%nat); cbn; try lia; reflexivity.
Defined.

(** C8, as the specification has it, fails: a term need not be an exact
    quotient.  For the shares (1,5) and (3,9) of 3 + 2x the first term
    divides -15 by -2; no integer times -2 is -15, and the program takes 7
    for the term. *)
Lemma C8_term_is_not_an_exact_quotient :
  let points := sharesOf [3; 2] [1; 3] in
  NoDup (map x points) /\
  y (at_ points 0) * lagrangeNumerator points 0 = -15 /\
  lagrangeDenominator points 0 = -2 /\
  (forall t, t * lagrangeDenominator points 0
             <> y (at_ points 0) * lagrangeNumerator points 0) /\
  map (lagrangeTerm points) [0; 1]%nat = [7; -4] /\
  findSecret points = Ok 3.
Proof.
  cbv zeta. split; [distinct_by_computation|].
  split; [reflexivity|]. split; [reflexivity|]. split; [|split; reflexivity].
  intros t Ht. change (t * -2 = -15) in Ht. lia.
Qed.

(** C8, amended.  For points with pairwise distinct abscissas such that
    every denominator_j divides y_j * numerator_j, the program returns the
    sum of the terms, each term being the exact quotient of the whole
    product y_j * numerator_j by the whole product denominator_j. *)
Theorem C8_sum_of_exact_terms (points : list Point) :
  NoDup (map x points) ->
  (forall j, (j < List.length points)%nat ->
     (lagrangeDenominator points j
        | y (at_ points j) * lagrangeNumerator points j)) ->
  exists terms,
    List.length terms = List.length points /\
    (forall j, (j < List.length points)%nat ->
       nth j terms 0 * lagrangeDenominator points j
       = y (at_ points j) * lagrangeNumerator points j) /\
    findSecret points = Ok (sum terms).
Proof.
  intros ND Hdiv.
  exists (map (lagrangeTerm points) (seq 0 (List.length points))).
  split; [now rewrite length_map, length_seq|].
  split; [|now apply findSecret_distinct].
  intros j Hj.
  rewrite (nth_indep _ 0 (lagrangeTerm points 0))
    by (rewrite length_map, length_seq; exact Hj).
  rewrite map_nth, seq_nth by exact Hj. cbn [Nat.add].
  apply lagrangeTerm_exact; [|now apply Hdiv].
  now apply lagrangeDenominator_nonzero.
Qed.

(** C8, amended, at the shares (1,5) and (2,7) of 3 + 2x. *)
Lemma C8_sum_of_exact_terms_witness :
  exists terms,
    List.length terms = 2%nat /\
    (forall j, (j < 2)%nat ->
       nth j terms 0
         * lagrangeDenominator [ {| x := 1; y := 5 |}; {| x := 2; y := 7 |} ] j
       = y (at_ [ {| x := 1; y := 5 |}; {| x := 2; y := 7 |} ] j)
         * lagrangeNumerator [ {| x := 1; y := 5 |}; {| x := 2; y := 7 |} ] j) /\
    findSecret [ {| x := 1; y := 5 |}; {| x := 2; y := 7 |} ] = Ok (sum terms).
Proof.
  apply (@C8_sum_of_exact_terms [ {| x := 1; y := 5 |}; {| x := 2; y := 7 |} ]).
  - distinct_by_computation.
  - intros j Hj. cbn in Hj.
    destruct j as [|[|j]]; [exists 10 | exists (-7) | lia]; reflexivity.
Defined.

(** C10.  No point at all gives 0, and a single point (x, y) gives y;
    neither raises an error. *)
Theorem C10_findSecret_of_none_and_of_one :
  findSecret [] = Ok 0 /\
  forall x0 y0, findSecret [ {| x := x0; y := y0 |} ] = Ok y0.
Proof.
  split; [reflexivity|]. intros x0 y0.
  unfold findSecret.
  cbn [List.length seq secretLoop basisLoop fold_left Nat.eqb negb at_ nth y].
  unfold div. cbn [Z.eqb bind secretLoop].
  rewrite Z.mul_1_r, Z.quot_1_r. reflexivity.
Qed.

(** ** Objects and the order of enumeration *)

Section Objects.

Context {A : Type}.

Lemma set_fresh (o : object A) (key : string) (v : A) :
  ~ In key (map fst o) -> set o key v = o ++ [(key, v)].
Proof.
  induction o as [|[key' v'] o IH]; intros H; [reflexivity|].
  cbn [set]. destruct (String.eqb_spec key' key) as [E|E].
  - exfalso. apply H. now left.
  - rewrite IH; [reflexivity|]. intros Hin. apply H. now right.
Qed.

(** Members with pairwise distinct names become properties in the order
    of the text. *)
Lemma JSON_parse_distinct (members : list (string * A)) :
  NoDup (map fst members) -> JSON_parse members = members.
Proof.
  unfold JSON_parse.
  enough (G : forall o : object A,
             NoDup (map fst (o ++ members)) ->
             fold_left (fun o m => set o (fst m) (snd m)) members o
             = o ++ members) by (intros ND; apply (G []); exact ND).
  induction members as [|[key v] members IH]; intros o ND.
  - cbn. now rewrite app_nil_r.
  - cbn [fold_left fst snd]. rewrite set_fresh.
    + rewrite IH; rewrite <- app_assoc; [reflexivity|exact ND].
    + rewrite map_app in ND. apply NoDup_remove_2 in ND.
      intros Hin. apply ND. apply in_or_app. now left.
Qed.

Lemma insertByIndex_perm (i : Z) (p : string * A) (l : list (Z * (string * A))) :
  Permutation (insertByIndex i p l) ((i, p) :: l).
Proof.
  induction l as [|[i' p'] l IH]; cbn [insertByIndex]; [reflexivity|].
  destruct (i <=? i'); [reflexivity|].
  rewrite IH. apply perm_swap.
Qed.

Lemma insertByIndex_sorted (i : Z) (p : string * A) (l : list (Z * (string * A))) :
  StronglySorted (fun a b => fst a <= fst b) l ->
  StronglySorted (fun a b => fst a <= fst b) (insertByIndex i p l).
Proof.
  induction l as [|[i' p'] l IH]; intros S; cbn [insertByIndex].
  - repeat constructor.
  - apply StronglySorted_inv in S as [S F].
    destruct (Z.leb_spec i i') as [L|L].
    + constructor; [constructor; assumption|].
      constructor; [exact L|].
      eapply Forall_impl; [|exact F]. cbn. intros a Ha. lia.
    + constructor; [now apply IH|].
      eapply Permutation_Forall; [symmetry; apply insertByIndex_perm|].
      constructor; [cbn; lia | exact F].
Qed.


(** What [indexProperties] holds: the properties whose key is an array
    index, each with its index. *)
Lemma in_indexProperties (o : object A) (i : Z) (p : string * A) :
  In (i, p) (indexProperties o) <-> In p o /\ arrayIndex (fst p) = Some i.
Proof.
  induction o as [|q o IH]; cbn [indexProperties]; [cbn; tauto|].
  destruct (arrayIndex (fst q)) as [iq|] eqn:Eq.
  - split.
    + intros H. apply (Permutation_in _ (insertByIndex_perm iq q _)) in H.
      destruct H as [H|H].
      * injection H as <- <-. split; [now left|exact Eq].
      * apply IH in H as [H1 H2]. split; [now right|exact H2].
    + intros [[->|H] E].
      * apply (Permutation_in _ (Permutation_sym (insertByIndex_perm iq p _))).
        left. congruence.
      * apply (Permutation_in _ (Permutation_sym (insertByIndex_perm iq q _))).
        right. apply IH. now split.
  - rewrite IH. split.
    + intros [H E]. split; [now right|exact E].
    + intros [[->|H] E]; [congruence|now split].
Qed.

Lemma indexProperties_sorted (o : object A) :
  StronglySorted (fun a b => fst a <= fst b) (indexProperties o).
Proof.
  induction o as [|q o IH]; cbn [indexProperties]; [constructor|].
  destruct (arrayIndex (fst q)); [now apply insertByIndex_sorted|exact IH].
Qed.

Lemma indexProperties_perm (o : object A) :
  (forall p, In p o -> arrayIndex (fst p) <> None) ->
  Permutation (map snd (indexProperties o)) o.
Proof.
  induction o as [|q o IH]; intros H; cbn [indexProperties]; [reflexivity|].
  destruct (arrayIndex (fst q)) as [iq|] eqn:Eq.
  - rewrite insertByIndex_perm. cbn [map snd]. constructor.
    apply IH. intros p Hp. apply H. now right.
  - exfalso. apply (H q); [now left|exact Eq].
Qed.

Lemma indexProperties_ascending (o : object A) :
  ascending (map snd (indexProperties o)).
Proof.
  pose proof (indexProperties_sorted o) as S.
  assert (I : forall a, In a (indexProperties o) ->
                        arrayIndex (fst (snd a)) = Some (fst a)).
  { intros [i p] Ha. now apply in_indexProperties in Ha. }
  unfold ascending. induction (indexProperties o) as [|a l IH]; [constructor|].
  apply StronglySorted_inv in S as [S F]. cbn [map]. constructor.
  - apply IH; [exact S|]. intros b Hb. apply I. now right.
  - rewrite Forall_map. rewrite Forall_forall in F |- *.
    intros b Hb. unfold indexOfRecord.
    rewrite (I a (or_introl eq_refl)), (I b (or_intror Hb)).
    now apply F.
Qed.


Lemma filter_isNamed_nil (o : object A) :
  (forall p, In p o -> arrayIndex (fst p) <> None) ->
  filter isNamed o = [].
Proof.
  induction o as [|q o IH]; intros H; [reflexivity|].
  cbn [filter]. unfold isNamed at 1.
  destruct (arrayIndex (fst q)) eqn:Eq;
    [|exfalso; apply (H q); [now left|exact Eq]].
  apply IH. intros p Hp. apply H. now right.
Qed.

End Objects.

(** ** Identifiers that are array indices *)

Lemma readDigits_spec (R : Z) (cs : list ascii) (acc : Z) (count : nat)
    (v : Z) (n0 : nat) :
  readDigits R cs acc count = (v, n0, []) ->
  Forall (fun c => 0 <= radixDigit c < R) cs /\
  v = acc * R ^ Z.of_nat (List.length cs)
      + numeralValue R (map radixDigit cs) /\
  n0 = (count + List.length cs)%nat.
Proof.
  revert acc count. induction cs as [|c cs IH]; intros acc count H.
  - cbn in H. injection H as <- <-. cbn. repeat split; [constructor|lia|lia].
  - cbn [readDigits] in H.
    destruct ((0 <=? radixDigit c) && (radixDigit c <? R)) eqn:T;
      [|discriminate H].
    apply andb_true_iff in T as [T1 T2].
    apply Z.leb_le in T1. apply Z.ltb_lt in T2.
    apply IH in H as (F & -> & ->). split; [constructor; [lia|exact F]|].
    cbn [List.length map numeralValue]. rewrite length_map.
    split; [|lia]. rewrite Nat2Z.inj_succ, Z.pow_succ_r by lia. ring.
Qed.

Lemma wholeNumeral_spec (R : Z) (cs : list ascii) (v : Z) :
  wholeNumeral R cs = Some v ->
  cs <> [] /\
  Forall (fun c => 0 <= radixDigit c < R) cs /\
  v = numeralValue R (map radixDigit cs).
Proof.
  unfold wholeNumeral. intros H.
  destruct (readDigits R cs 0 0) as [[v' n'] rest] eqn:E.
  destruct n' as [|n']; [discriminate|].
  destruct rest; [|discriminate]. injection H as ->.
  apply readDigits_spec in E as (F & -> & Hn). split; [|split].
  - intros ->. cbn in Hn. discriminate.
  - exact F.
  - ring.
Qed.

(** What makes a key an array index: decimal digits only, at least one,
    no zero in front of another digit, and a value below 2^32 - 1. *)
Lemma arrayIndex_spec (key : string) (i : Z) :
  arrayIndex key = Some i ->
  chars key <> [] /\
  Forall (fun c => 0 <= radixDigit c < 10) (chars key) /\
  (forall c c' r, chars key = c :: c' :: r -> radixDigit c <> 0) /\
  i = numeralValue 10 (map radixDigit (chars key)) /\
  wholeNumeral 10 (chars key) = Some i.
Proof.
  unfold arrayIndex, chars. set (cs := list_ascii_of_string key). intros H.
  destruct (match cs with c :: _ :: _ => Ascii.eqb c "0" | _ => false end)
    eqn:Z0; [discriminate|].
  destruct (wholeNumeral 10 cs) as [v|] eqn:W; [|discriminate].
  destruct (v <? 4294967295); [|discriminate]. injection H as ->.
  pose proof (wholeNumeral_spec _ _ W) as (N & F & V).
  repeat split; try assumption.
  intros c c' r E. rewrite E in Z0.
  destruct (Ascii.eqb_spec c "0") as [E0|NE]; [discriminate|].
  intros D. rewrite E in F. apply Forall_inv in F. cbn beta in F.
  clear - D F NE.
  every_char c.
Qed.

Lemma digit_is_no_white_space (c : ascii) :
  0 <= radixDigit c -> isWhiteSpace c = false.
Proof.
  every_char c.
Qed.

Lemma digit_is_no_sign (c : ascii) :
  0 <= radixDigit c -> Ascii.eqb c "+" = false /\ Ascii.eqb c "-" = false.
Proof.
  every_char c.
Qed.

Lemma decimal_digit_is_no_radix_letter (c : ascii) :
  0 <= radixDigit c < 10 ->
  Ascii.eqb c "x" || Ascii.eqb c "X" = false /\
  Ascii.eqb c "o" || Ascii.eqb c "O" = false /\
  Ascii.eqb c "b" || Ascii.eqb c "B" = false.
Proof.
  every_char c.
Qed.

(** A decimal digit is known by its value. *)
Lemma decimal_digit_char (c : ascii) :
  0 <= radixDigit c < 10 -> c = ascii_of_N (48 + Z.to_N (radixDigit c)).
Proof.
  every_char c.
Qed.

Lemma trimStart_digits (cs : list ascii) :
  Forall (fun c => 0 <= radixDigit c < 10) cs -> trimStart cs = cs.
Proof.
  intros F. destruct cs as [|c cs]; [reflexivity|].
  apply Forall_inv in F. cbn [trimStart].
  rewrite digit_is_no_white_space by lia. reflexivity.
Qed.

Lemma trim_digits (cs : list ascii) :
  Forall (fun c => 0 <= radixDigit c < 10) cs -> trim cs = cs.
Proof.
  intros F. unfold trim. rewrite (trimStart_digits F).
  rewrite trimStart_digits by now apply Forall_rev.
  apply rev_involutive.
Qed.

(** [BigInt(key)] of an array index is that index. *)
Lemma BigInt_ofString_arrayIndex (key : string) (i : Z) :
  arrayIndex key = Some i -> BigInt_ofString key = Ok i.
Proof.
  intros H. apply arrayIndex_spec in H as (N & F & L & _ & W).
  unfold BigInt_ofString. fold (chars key). rewrite (trim_digits F).
  destruct (chars key) as [|c r] eqn:E; [contradiction|].
  pose proof (Forall_inv F) as Fc. cbn beta in Fc.
  destruct (digit_is_no_sign c) as [-> ->]; [lia|].
  assert (radixPrefix (c :: r) = None) as ->; [|now rewrite W].
  destruct r as [|c' r]; [reflexivity|]. cbn [radixPrefix].
  destruct (Ascii.eqb_spec c "0") as [->|]; [|reflexivity].
  exfalso. now apply (L "0"%char c' r).
Qed.

Lemma numeralValue_bound (ds : list Z) :
  Forall (fun d => 0 <= d < 10) ds ->
  0 <= numeralValue 10 ds < 10 ^ Z.of_nat (List.length ds).
Proof.
  induction 1 as [|d ds Hd F IH]; [cbn; lia|].
  cbn [numeralValue List.length].
  rewrite Nat2Z.inj_succ, Z.pow_succ_r by lia.
  assert (0 < 10 ^ Z.of_nat (List.length ds)) by (apply Z.pow_pos_nonneg; lia).
  nia.
Qed.

(** Digit lists of the same length with the same value are the same. *)
Lemma numeralValue_inj_length (ds1 ds2 : list Z) :
  Forall (fun d => 0 <= d < 10) ds1 ->
  Forall (fun d => 0 <= d < 10) ds2 ->
  List.length ds1 = List.length ds2 ->
  numeralValue 10 ds1 = numeralValue 10 ds2 ->
  ds1 = ds2.
Proof.
  intros F1. revert ds2.
  induction F1 as [|d1 ds1 H1 F1 IH]; intros [|d2 ds2] F2 L V;
    try discriminate L; [reflexivity|].
  injection L as L. apply Forall_cons_iff in F2 as [H2 F2].
  cbn [numeralValue] in V. rewrite L in V.
  pose proof (numeralValue_bound F1) as B1. rewrite L in B1.
  pose proof (numeralValue_bound F2) as B2.
  assert (d1 = d2) as -> by nia.
  f_equal. apply IH; [exact F2|exact L|lia].
Qed.

(** A numeral without a leading zero is at least the weight of its first
    digit. *)
Lemma numeralValue_lower (d : Z) (ds : list Z) :
  1 <= d ->
  Forall (fun d => 0 <= d < 10) ds ->
  10 ^ Z.of_nat (List.length ds) <= numeralValue 10 (d :: ds).
Proof.
  intros Hd F. cbn [numeralValue].
  pose proof (numeralValue_bound F).
  assert (0 < 10 ^ Z.of_nat (List.length ds)) by (apply Z.pow_pos_nonneg; lia).
  nia.
Qed.

Lemma shorter_canonical_is_less (cs1 cs2 : list ascii) :
  Forall (fun c => 0 <= radixDigit c < 10) cs1 ->
  Forall (fun c => 0 <= radixDigit c < 10) cs2 ->
  cs1 <> [] ->
  (forall c c' r, cs2 = c :: c' :: r -> radixDigit c <> 0) ->
  (List.length cs1 < List.length cs2)%nat ->
  numeralValue 10 (map radixDigit cs1) < numeralValue 10 (map radixDigit cs2).
Proof.
  intros F1 F2 N1 L2 Hlen.
  destruct cs2 as [|c [|c' r]].
  - cbn in Hlen. lia.
  - destruct cs1; [contradiction|cbn in Hlen; lia].
  - specialize (L2 c c' r eq_refl).
    apply Forall_cons_iff in F2 as [Hc F2]. cbn [map].
    assert (D1 : Forall (fun d => 0 <= d < 10) (map radixDigit cs1))
      by now apply Forall_map.
    assert (D2 : Forall (fun d => 0 <= d < 10) (map radixDigit (c' :: r)))
      by now apply Forall_map.
    pose proof (numeralValue_bound D1) as B1.
    pose proof (@numeralValue_lower (radixDigit c) _ ltac:(lia) D2) as B2.
    rewrite !length_map in B1, B2.
    assert (10 ^ Z.of_nat (List.length cs1)
            <= 10 ^ Z.of_nat (List.length (c' :: r)))
      by (apply Z.pow_le_mono_r; cbn [List.length] in *; lia).
    cbn [map] in B2. lia.
Qed.

Lemma decimal_digits_inj (cs1 cs2 : list ascii) :
  Forall (fun c => 0 <= radixDigit c < 10) cs1 ->
  Forall (fun c => 0 <= radixDigit c < 10) cs2 ->
  map radixDigit cs1 = map radixDigit cs2 ->
  cs1 = cs2.
Proof.
  intros F1. revert cs2.
  induction F1 as [|c1 cs1 H1 F1 IH]; intros [|c2 cs2] F2 E;
    try discriminate E; [reflexivity|].
  apply Forall_cons_iff in F2 as [H2 F2]. cbn [map] in E.
  injection E as Ec Ecs.
  rewrite (decimal_digit_char c1 H1), (decimal_digit_char c2 H2), Ec.
  f_equal. now apply IH.
Qed.

(** An index has one canonical numeral only. *)
Lemma arrayIndex_inj (key1 key2 : string) (i : Z) :
  arrayIndex key1 = Some i -> arrayIndex key2 = Some i -> key1 = key2.
Proof.
  intros H1 H2.
  apply arrayIndex_spec in H1 as (N1 & F1 & L1 & V1 & _).
  apply arrayIndex_spec in H2 as (N2 & F2 & L2 & V2 & _).
  assert (E : chars key1 = chars key2).
  { apply decimal_digits_inj; [exact F1|exact F2|].
    apply numeralValue_inj_length; [now apply Forall_map..| |congruence].
    rewrite !length_map.
    destruct (Nat.lt_trichotomy (List.length (chars key1))
                                (List.length (chars key2))) as [Lt|[Eq|Gt]].
    - pose proof (shorter_canonical_is_less F1 F2 N1 L2 Lt). lia.
    - exact Eq.
    - pose proof (shorter_canonical_is_less F2 F1 N2 L1 Gt). lia. }
  rewrite <- (string_of_list_ascii_of_string key1),
          <- (string_of_list_ascii_of_string key2).
  unfold chars in E. now rewrite E.
Qed.

Section Enumeration.

Context {A : Type}.

Implicit Types rs : list (string * A).

(** Records with distinct identifiers, all of them array indices, have
    distinct indices. *)
Lemma distinct_indices rs (a b : string * A) :
  NoDup (map fst rs) ->
  (forall r, In r rs -> arrayIndex (fst r) <> None) ->
  In a rs -> In b rs ->
  indexOfRecord a = indexOfRecord b -> a = b.
Proof.
  intros ND Hidx Ha Hb E.
  assert (K : fst a = fst b).
  { unfold indexOfRecord in E.
    pose proof (Hidx a Ha) as Ia. pose proof (Hidx b Hb) as Ib.
    destruct (arrayIndex (fst a)) as [ia|] eqn:Ea; [|contradiction].
    destruct (arrayIndex (fst b)) as [ib|] eqn:Eb; [|contradiction].
    subst ib. now apply (@arrayIndex_inj _ _ ia). }
  clear E Hidx. induction rs as [|r rs IH]; [destruct Ha|].
  cbn [map] in ND. apply NoDup_cons_iff in ND as [Nr ND].
  destruct Ha as [->|Ha], Hb as [->|Hb].
  - reflexivity.
  - exfalso. apply Nr. rewrite K. now apply in_map.
  - exfalso. apply Nr. rewrite <- K. now apply in_map.
  - now apply IH.
Qed.


(** In ascending order, their indices increase strictly. *)
Lemma ascending_strict rs :
  NoDup (map fst rs) ->
  (forall r, In r rs -> arrayIndex (fst r) <> None) ->
  ascending rs ->
  StronglySorted Z.lt (map indexOfRecord rs).
Proof.
  intros ND Hidx S. induction rs as [|a rs IH]; [constructor|].
  pose proof (StronglySorted_inv S) as [S' F].
  cbn [map]. constructor.
  - pose proof ND as ND'. cbn [map] in ND'. apply NoDup_cons_iff in ND' as [_ ND'].
    apply IH; auto. intros r Hr. apply Hidx. now right.
  - rewrite Forall_map. rewrite Forall_forall in F |- *. intros b Hb.
    specialize (F b Hb). cbn beta in F.
    destruct (Z.eq_dec (indexOfRecord a) (indexOfRecord b)) as [E|NE]; [|lia].
    exfalso.
    assert (a = b) as <-
      by (apply (@distinct_indices (a :: rs)); auto; [now left|now right]).
    cbn [map] in ND. apply NoDup_cons_iff in ND as [Na _].
    apply Na. now apply in_map.
Qed.

End Enumeration.



(** ** Decoding and selecting the shares *)

(** The loop decodes, in the order of the visit, every property that is
    not called [keys]. *)
Lemma pointsLoop_spec (props : list (string * Share)) (points : list Point) :
  pointsLoop props points =
  (ps <- decodeRecords
           (filter (fun r => negb (String.eqb (fst r) "keys")) props) ;;
   Ok (points ++ ps)).
Proof.
  revert points. induction props as [|[key entry] rest IH]; intros points.
  - cbn. now rewrite app_nil_r.
  - cbn [pointsLoop filter fst].
    destruct (negb (String.eqb key "keys")); [|apply IH].
    cbn [decodeRecords]. unfold decodeRecord. cbn [fst snd].
    destruct (BigInt_ofString key) as [x0|e]; [|reflexivity].
    cbn [bind].
    destruct (parseBigIntWithBase (value entry) (parseInt10 (base entry)))
      as [y0|e]; [|reflexivity].
    cbn [bind]. rewrite IH.
    destruct (decodeRecords _) as [ps|e]; [|reflexivity].
    cbn [bind]. now rewrite <- app_assoc.
Qed.

Lemma filter_not_keys (rs : list (string * Share)) :
  (forall r, In r rs -> arrayIndex (fst r) <> None) ->
  filter (fun r => negb (String.eqb (fst r) "keys")) rs = rs.
Proof.
  induction rs as [|r rs IH]; intros H; [reflexivity|].
  cbn [filter]. destruct (String.eqb_spec (fst r) "keys") as [E|E].
  - exfalso. apply (H r); [now left|]. now rewrite E.
  - cbn [negb]. f_equal. apply IH. intros q Hq. apply H. now right.
Qed.

(** The run the specification describes: of four shares of f(x) = 3x the
    first three are used, and the secret is 0. *)
Lemma main_on_shares_of_3x :
  main (testCaseOf {| n := 4; k := 3 |}
          [("1", {| base := "10"; value := "3" |});
           ("2", {| base := "2"; value := "110" |});
           ("3", {| base := "16"; value := "9" |});
           ("6", {| base := "36"; value := "i" |})]) = Ok 0.
Proof. reflexivity. Qed.


(** With distinct array indices for identifiers, the points passed on are
    cut from the records decoded in the order of enumeration. *)
Lemma pointsToUse_enumerated (ks : Keys) (members : list (string * Share)) :
  NoDup (map fst members) ->
  (forall r, In r members -> arrayIndex (fst r) <> None) ->
  pointsToUse (testCaseOf ks members)
  = (allPoints <- decodeRecords (map snd (indexProperties members)) ;;
     Ok (slice0 allPoints (k ks))).
Proof.
  intros ND Hidx.
  unfold pointsToUse, getPointsFromJSON, testCaseOf. cbn [shares keys].
  rewrite JSON_parse_distinct by exact ND.
  unfold forIn. rewrite filter_isNamed_nil, app_nil_r by exact Hidx.
  rewrite pointsLoop_spec, filter_not_keys.
  - destruct (decodeRecords _); reflexivity.
  - intros r Hr. apply Hidx.
    apply (Permutation_in _ (indexProperties_perm members Hidx)). exact Hr.
Qed.

Lemma decodeRecords_length (rs : list (string * Share)) (ps : list Point) :
  decodeRecords rs = Ok ps -> List.length ps = List.length rs.
Proof.
  revert ps. induction rs as [|r rs IH]; intros ps H.
  - cbn in H. injection H as <-. reflexivity.
  - cbn [decodeRecords] in H.
    destruct (decodeRecord r); [|discriminate H]. cbn [bind] in H.
    destruct (decodeRecords rs) as [ps'|]; [|discriminate H].
    cbn [bind] in H. injection H as <-. cbn [List.length]. f_equal. now apply IH.
Qed.




(** * Further properties of the program *)

(** ** The base decoder: range, concatenation, leading zeros, injectivity *)

Lemma chars_length (s : string) : List.length (chars s) = String.length s.
Proof. induction s as [|c s IH]; cbn; [reflexivity|]. now f_equal. Qed.

Lemma chars_app (s1 s2 : string) :
  chars (s1 ++ s2)%string = chars s1 ++ chars s2.
Proof.
  induction s1 as [|c s1 IH]; [reflexivity|].
  cbn [String.append]. change (chars (String c (s1 ++ s2)%string))
    with (c :: chars (s1 ++ s2)%string). rewrite IH. reflexivity.
Qed.

Lemma find_over_app (A : Type) (f : A -> bool) (l1 l2 : list A) :
  find f (l1 ++ l2)
  = match find f l1 with
    | Some a => Some a
    | None => find f l2
    end.
Proof.
  induction l1 as [|a l1 IH]; [reflexivity|].
  cbn [app find]. destruct (f a); [reflexivity|exact IH].
Qed.

(** What a successful decoding says of the characters. *)
Lemma decoded_digits (s : string) (base v : Z) :
  parseBigIntWithBase s (Num base) = Ok v ->
  Forall (fun d => 0 <= d < base) (map digitValue (chars s)) /\
  v = numeralValue base (map digitValue (chars s)).
Proof.
  rewrite parseBigIntWithBase_spec. intros H.
  destruct (find _ (chars s)) as [c|] eqn:F; [discriminate H|].
  injection H as <-. split; [|reflexivity].
  apply Forall_map, Forall_forall. intros c Hc. apply isDigitOf_spec.
  pose proof (find_none _ _ F c Hc) as N. cbn beta in N.
  now apply negb_false_iff in N.
Qed.

Lemma numeralValue_range (base : Z) (ds : list Z) :
  Forall (fun d => 0 <= d < base) ds ->
  0 <= numeralValue base ds < base ^ Z.of_nat (List.length ds).
Proof.
  induction 1 as [|d ds Hd F IH]; [cbn; lia|].
  cbn [numeralValue List.length].
  rewrite Nat2Z.inj_succ, Z.pow_succ_r by lia.
  assert (0 < base ^ Z.of_nat (List.length ds)) by (apply Z.pow_pos_nonneg; lia).
  nia.
Qed.

Lemma numeralValue_inj (base : Z) (ds1 ds2 : list Z) :
  Forall (fun d => 0 <= d < base) ds1 ->
  Forall (fun d => 0 <= d < base) ds2 ->
  List.length ds1 = List.length ds2 ->
  numeralValue base ds1 = numeralValue base ds2 ->
  ds1 = ds2.
Proof.
  intros F1. revert ds2.
  induction F1 as [|d1 ds1 H1 F1 IH]; intros [|d2 ds2] F2 L V;
    try discriminate L; [reflexivity|].
  injection L as L. apply Forall_cons_iff in F2 as [H2 F2].
  cbn [numeralValue] in V. rewrite L in V.
  pose proof (numeralValue_range F1) as B1. rewrite L in B1.
  pose proof (numeralValue_range F2) as B2.
  assert (d1 = d2) as -> by nia.
  f_equal. apply IH; [exact F2|exact L|lia].
Qed.

Lemma numeralValue_app (base : Z) (ds1 ds2 : list Z) :
  numeralValue base (ds1 ++ ds2)
  = numeralValue base ds1 * base ^ Z.of_nat (List.length ds2)
    + numeralValue base ds2.
Proof.
  induction ds1 as [|d ds1 IH]; [cbn; lia|].
  cbn [app numeralValue]. rewrite IH, length_app, Nat2Z.inj_add.
  rewrite Z.pow_add_r by lia. ring.
Qed.

(** The letter or digit behind a digit value. *)
Lemma digitValue_lower (c : ascii) :
  0 <= digitValue c ->
  String.get (Z.to_nat (digitValue c)) digits = Some (toLowerCase c).
Proof. every_char c. Qed.

(** X1.  A decoded value is not negative and stays below the radix raised to
    the number of characters. *)
Theorem decode_value_range (s : string) (base v : Z) :
  parseBigIntWithBase s (Num base) = Ok v ->
  0 <= v < base ^ Z.of_nat (String.length s).
Proof.
  intros H. apply decoded_digits in H as [F ->].
  rewrite <- chars_length, <- (length_map digitValue).
  now apply numeralValue_range.
Qed.

Lemma decode_value_range_witness : 0 <= 255 < 16 ^ Z.of_nat (String.length "fF").
Proof. apply (@decode_value_range "fF" 16 255). reflexivity. Defined.

(** X2.  Decoding a concatenation: the left part is decoded first and its error,
    if any, is the error of the whole; otherwise the right part is decoded,
    and the left value is shifted by as many places as the right part has
    characters. *)
Theorem decode_concatenation (s1 s2 : string) (base : Z) :
  parseBigIntWithBase (s1 ++ s2)%string (Num base)
  = (v1 <- parseBigIntWithBase s1 (Num base) ;;
     v2 <- parseBigIntWithBase s2 (Num base) ;;
     Ok (v1 * base ^ Z.of_nat (String.length s2) + v2)).
Proof.
  rewrite !parseBigIntWithBase_spec, chars_app, find_over_app.
  destruct (find _ (chars s1)) as [c|]; [reflexivity|]. cbn [bind].
  destruct (find _ (chars s2)) as [c|]; [reflexivity|]. cbn [bind].
  rewrite map_app, numeralValue_app, length_map, chars_length. reflexivity.
Qed.

(** X3.  Zeros in front do not change what a string decodes to, value or
    error, in any radix from 1 up. *)
Theorem decode_leading_zeros (zeros s : string) (base : Z) :
  1 <= base ->
  (forall c, In c (chars zeros) -> c = "0"%char) ->
  parseBigIntWithBase (zeros ++ s)%string (Num base)
  = parseBigIntWithBase s (Num base).
Proof.
  intros Hbase Hz.
  rewrite !parseBigIntWithBase_spec, chars_app, find_over_app, map_app, numeralValue_app.
  assert (find (fun c => negb (isDigitOf base c)) (chars zeros) = None) as ->.
  { apply find_none_digits. intros c Hc. rewrite (Hz c Hc).
    change (digitValue "0") with 0. lia. }
  assert (numeralValue base (map digitValue (chars zeros)) = 0) as ->.
  { induction (chars zeros) as [|c l IH]; [reflexivity|].
    cbn [map numeralValue]. rewrite (Hz c (or_introl eq_refl)), IH.
    - change (digitValue "0") with 0. ring.
    - intros d Hd. apply Hz. now right. }
  destruct (find _ (chars s)); reflexivity.
Qed.

Lemma decode_leading_zeros_witness :
  parseBigIntWithBase "007f" (Num 16) = parseBigIntWithBase "7f" (Num 16).
Proof.
  apply (@decode_leading_zeros "00" "7f" 16); [lia|].
  intros c [<-|[<-|[]]]; reflexivity.
Defined.

(** X4.  Two strings of the same length that decode to the same value in the
    same radix are the same string up to the case of the letters. *)
Theorem decode_injective_up_to_case (s1 s2 : string) (base v : Z) :
  String.length s1 = String.length s2 ->
  parseBigIntWithBase s1 (Num base) = Ok v ->
  parseBigIntWithBase s2 (Num base) = Ok v ->
  map toLowerCase (chars s1) = map toLowerCase (chars s2).
Proof.
  intros L H1 H2.
  apply decoded_digits in H1 as [F1 V1]. apply decoded_digits in H2 as [F2 V2].
  assert (E : map digitValue (chars s1) = map digitValue (chars s2)).
  { apply (@numeralValue_inj base); [exact F1|exact F2| |congruence].
    now rewrite !length_map, !chars_length. }
  clear V1 V2 L. rewrite Forall_map in F1, F2. revert F1 F2 E.
  generalize (chars s1) (chars s2). clear.
  induction l as [|c1 l1 IH]; intros [|c2 l2] F1 F2 E; try discriminate E;
    [reflexivity|].
  apply Forall_cons_iff in F1 as [H1 F1]. apply Forall_cons_iff in F2 as [H2 F2].
  cbn [map] in E |- *. injection E as Ec El.
  pose proof (digitValue_lower c1 ltac:(lia)) as G1.
  pose proof (digitValue_lower c2 ltac:(lia)) as G2.
  rewrite Ec, G2 in G1. injection G1 as <-. f_equal. now apply IH.
Qed.

Lemma decode_injective_up_to_case_witness :
  map toLowerCase (chars "aEd7") = map toLowerCase (chars "AeD7").
Proof.
  apply (@decode_injective_up_to_case "aEd7" "AeD7" 16 44759); reflexivity.
Defined.

(** ** The Lagrange evaluation: when it fails, and what it does not depend on *)

Lemma duplicate_indices (l : list Z) :
  ~ NoDup l ->
  exists i j, (i < j < List.length l)%nat /\ nth i l 0 = nth j l 0.
Proof.
  induction l as [|a l IH]; intros H; [exfalso; apply H; constructor|].
  destruct (in_dec Z.eq_dec a l) as [Hin|Hin].
  - apply (In_nth _ _ 0) in Hin as (m & Hm & E).
    exists 0%nat, (S m). cbn [nth List.length]. split; [lia|now symmetry].
  - destruct IH as (i & j & Hij & E).
    + intros ND. apply H. now constructor.
    + exists (S i), (S j). cbn [nth List.length]. split; [lia|exact E].
Qed.

Lemma findSecret_duplicates (points : list Point) :
  ~ NoDup (map x points) ->
  findSecret points = Throw RangeError_DivisionByZero.
Proof.
  intros H. apply duplicate_indices in H as (i & j & Hij & E).
  rewrite length_map in Hij. rewrite <- !x_at in E.
  apply secretLoop_throws.
  - intros m Hm. apply in_seq in Hm. lia.
  - exists j. split; [apply in_seq; lia|].
    apply (@lagrangeDenominator_zero points i j); [lia|lia|lia|exact E].
Qed.

(** X5.  The evaluation fails exactly when two abscissas coincide, and a
    division by zero is the only error it ever raises. *)
Theorem findSecret_fails_exactly_on_duplicates (points : list Point) :
  (findSecret points = Throw RangeError_DivisionByZero
   <-> ~ NoDup (map x points)) /\
  (forall e, findSecret points = Throw e -> e = RangeError_DivisionByZero).
Proof.
  destruct (ListDec.NoDup_dec Z.eq_dec (map x points)) as [ND|ND].
  - rewrite (findSecret_distinct points ND). split; [split|].
    + discriminate.
    + intros H. contradiction.
    + discriminate.
  - rewrite (findSecret_duplicates points ND). split; [split; auto|].
    intros e H. now injection H as <-.
Qed.

Lemma product_perm (l l' : list Z) : Permutation l l' -> product l = product l'.
Proof.
  unfold product. induction 1; cbn [fold_right]; try congruence; ring.
Qed.

Lemma sum_perm (l l' : list Z) : Permutation l l' -> sum l = sum l'.
Proof.
  unfold sum. induction 1; cbn [fold_right]; try congruence; ring.
Qed.

Lemma filter_perm (A : Type) (f : A -> bool) (l l' : list A) :
  Permutation l l' -> Permutation (filter f l) (filter f l').
Proof.
  induction 1 as [|a l l' P IH|a b l|l l' l'' P1 IH1 P2 IH2]; cbn [filter].
  - constructor.
  - destruct (f a); [now constructor|exact IH].
  - destruct (f a), (f b); try reflexivity. apply perm_swap.
  - now transitivity (filter f l').
Qed.

Lemma filter_all (A : Type) (f : A -> bool) (l : list A) :
  (forall a, In a l -> f a = true) -> filter f l = l.
Proof.
  induction l as [|a l IH]; intros H; [reflexivity|].
  cbn [filter]. rewrite (H a (or_introl eq_refl)). f_equal.
  apply IH. intros b Hb. apply H. now right.
Qed.

(** With distinct abscissas, the other points are those of another
    abscissa. *)
Lemma others_by_abscissa (points : list Point) (j : nat) :
  NoDup (map x points) ->
  (j < List.length points)%nat ->
  others points j
  = filter (fun q => negb (x q =? x (at_ points j))) points.
Proof.
  intros ND Hj.
  assert (K : forall q, In q (others points j) ->
                        negb (x q =? x (at_ points j)) = true).
  { intros q Hq. apply in_others in Hq as (m & Hm & NE & ->); [|exact Hj].
    apply negb_true_iff, Z.eqb_neq. rewrite !x_at. intros E. apply NE.
    rewrite (NoDup_nth (map x points) 0) in ND.
    apply ND; rewrite ?length_map; try lia. }
  unfold others in K |- *.
  rewrite <- (firstn_skipn j points) at 3.
  rewrite (@skipn_nth_cons _ {| x := 0; y := 0 |} points j) by exact Hj.
  fold (at_ points j). rewrite filter_app. cbn [filter].
  rewrite Z.eqb_refl. cbn [negb].
  rewrite !filter_all; [reflexivity| |];
    intros q Hq; apply K, in_or_app; [now right|now left].
Qed.

Lemma findSecret_by_points (points : list Point) :
  NoDup (map x points) ->
  findSecret points = Ok (sum (map (termOf points) points)).
Proof.
  intros ND. rewrite (findSecret_distinct points ND). do 2 f_equal.
  transitivity (map (termOf points)
                    (map (at_ points) (seq 0 (List.length points)))).
  - rewrite map_map. apply map_ext_in. intros j Hj. apply in_seq in Hj.
    unfold lagrangeTerm, termOf, lagrangeNumerator, lagrangeDenominator.
    now rewrite others_by_abscissa by (exact ND || lia).
  - f_equal. rewrite map_at_seq by lia. apply firstn_all.
Qed.

(** X6.  The order in which the points are given does not matter, for the
    value or for the failure. *)
Theorem findSecret_order_of_points (points points' : list Point) :
  Permutation points points' ->
  findSecret points = findSecret points'.
Proof.
  intros P.
  destruct (ListDec.NoDup_dec Z.eq_dec (map x points)) as [ND|ND].
  - assert (ND' : NoDup (map x points'))
      by (eapply Permutation_NoDup; [apply Permutation_map, P|exact ND]).
    rewrite (findSecret_by_points points ND), (findSecret_by_points points' ND'). f_equal.
    rewrite (@map_ext _ _ (termOf points) (termOf points')).
    + apply sum_perm, Permutation_map, P.
    + intros p. unfold termOf. cbv zeta.
      f_equal; [f_equal|]; apply product_perm, Permutation_map, filter_perm, P.
  - rewrite (findSecret_duplicates points ND), findSecret_duplicates; [reflexivity|].
    intros ND'. apply ND.
    eapply Permutation_NoDup; [apply Permutation_map, Permutation_sym, P|exact ND'].
Qed.

Lemma findSecret_order_of_points_witness :
  findSecret [ {| x := 5; y := 26 |}; {| x := 1; y := 2 |}; {| x := 3; y := 10 |} ]
  = findSecret [ {| x := 1; y := 2 |}; {| x := 3; y := 10 |}; {| x := 5; y := 26 |} ].
Proof.
  apply findSecret_order_of_points.
  eapply perm_trans; [apply perm_swap|]. apply perm_skip, perm_swap.
Defined.

(** X7.  A share taken at 0 is the secret itself: with distinct abscissas, when
    one of the points has x = 0 the result is the y of that point, whatever
    the other points are. *)
Theorem findSecret_share_at_zero (points : list Point) (j : nat) :
  NoDup (map x points) ->
  (j < List.length points)%nat ->
  x (at_ points j) = 0 ->
  findSecret points = Ok (y (at_ points j)).
Proof.
  intros ND Hj X0. rewrite (findSecret_distinct points ND). f_equal.
  rewrite (@sum_single _ _ j); [|apply seq_NoDup|apply in_seq; lia|].
  - unfold lagrangeTerm.
    assert (lagrangeNumerator points j = lagrangeDenominator points j) as ->.
    { unfold lagrangeNumerator, lagrangeDenominator. rewrite X0.
      apply (f_equal product), map_ext. intros p. ring. }
    apply Z.quot_mul. now apply lagrangeDenominator_nonzero.
  - intros i Hi NE. apply in_seq in Hi. unfold lagrangeTerm.
    assert (lagrangeNumerator points i = 0) as ->.
    { apply product_zero, in_map_iff. exists (at_ points j).
      split; [lia|]. apply in_others; [lia|]. exists j. auto. }
    rewrite Z.mul_0_r. reflexivity.
Qed.

Lemma findSecret_share_at_zero_witness :
  findSecret [ {| x := 4; y := 19 |}; {| x := 0; y := 7 |}; {| x := 9; y := 1 |} ]
  = Ok 7.
Proof.
  apply (@findSecret_share_at_zero
           [ {| x := 4; y := 19 |}; {| x := 0; y := 7 |}; {| x := 9; y := 1 |} ]
           1%nat); [distinct_by_computation|cbn; lia|reflexivity].
Defined.

(** ** The Lagrange evaluation: how far from the secret, and when exact *)

Lemma sharesOf_x (f xs : list Z) : map x (sharesOf f xs) = xs.
Proof.
  unfold sharesOf. rewrite map_map. cbn [x]. apply map_id.
Qed.

Lemma sharesOf_y (f xs : list Z) (p : Point) :
  In p (sharesOf f xs) -> y p = evalPoly f (x p).
Proof.
  unfold sharesOf. intros H. apply in_map_iff in H as (x0 & <- & _). reflexivity.
Qed.

Lemma sharesOf_length (f xs : list Z) :
  List.length (sharesOf f xs) = List.length xs.
Proof. unfold sharesOf. apply length_map. Qed.

(** X8.  Shares of a polynomial of degree below their number, taken at
    distinct abscissas: when every denominator divides its numerator, the
    result is the constant term of the polynomial. *)
Theorem findSecret_recovers_secret_when_exact (f xs : list Z) :
  NoDup xs ->
  (List.length f <= List.length xs)%nat ->
  (forall j, (j < List.length xs)%nat ->
     (lagrangeDenominator (sharesOf f xs) j
        | y (at_ (sharesOf f xs) j) * lagrangeNumerator (sharesOf f xs) j)) ->
  findSecret (sharesOf f xs) = Ok (evalPoly f 0).
Proof.
  intros ND Lf Hdiv. apply findSecret_exact_is_constant_term.
  - now rewrite sharesOf_x.
  - now rewrite sharesOf_length.
  - apply sharesOf_y.
  - intros j Hj. apply Hdiv. now rewrite sharesOf_length in Hj.
Qed.

Lemma findSecret_recovers_secret_when_exact_witness :
  findSecret (sharesOf [7; -3; 2] [-1; 1; 2]) = Ok 7.
Proof.
  apply (@findSecret_recovers_secret_when_exact [7; -3; 2] [-1; 1; 2]).
  - repeat constructor; cbn; intuition discriminate.
  - cbn. lia.
  - intros j Hj. cbn in Hj.
    destruct j as [|[|[|j]]]; [exists 4 | exists 6 | exists (-3) | lia];
      reflexivity.
Defined.

Lemma sum_map_add (g h : nat -> Z) (js : list nat) :
  sum (map (fun j => g j + h j) js) = sum (map g js) + sum (map h js).
Proof.
  unfold sum. induction js as [|j js IH]; cbn [map fold_right]; [ring|].
  rewrite IH. ring.
Qed.

Lemma sum_map_bound (g : nat -> Z) (M : Z) (js : list nat) :
  (forall j, In j js -> Z.abs (g j) <= M) ->
  Z.abs (sum (map g js)) <= Z.of_nat (List.length js) * M.
Proof.
  unfold sum. induction js as [|j js IH]; intros H; cbn [map fold_right List.length].
  - cbn. lia.
  - specialize (H j (or_introl eq_refl)) as Hj.
    assert (IH' : Z.abs (fold_right Z.add 0 (map g js))
                  <= Z.of_nat (List.length js) * M)
      by (apply IH; intros i Hi; apply H; now right).
    rewrite Nat2Z.inj_succ. lia.
Qed.

(** The identity behind the interpolation, cleared of its denominators:
    with P the product of all the denominators and Q_j the product of the
    others, P f(0) is the sum of the y_j Q_j numerator_j. *)
Lemma lagrange_identity (f : list Z) (points : list Point) :
  NoDup (map x points) ->
  (List.length f <= List.length points)%nat ->
  (forall p, In p points -> y p = evalPoly f (x p)) ->
  exists (P : Z) (Q : nat -> Z),
    P <> 0 /\
    (forall j, (j < List.length points)%nat ->
               P = lagrangeDenominator points j * Q j) /\
    P * evalPoly f 0
    = sum (map (fun j => y (at_ points j) * Q j * lagrangeNumerator points j)
               (seq 0 (List.length points))).
Proof.
  intros ND Lf Hy.
  set (js := seq 0 (List.length points)).
  set (D := lagrangeDenominator points).
  set (Q j := product (map D (filter (fun m => negb (j =? m)%nat) js))).
  set (P := product (map D js)).
  assert (Hjs : forall j, In j js <-> (j < List.length points)%nat)
    by (intros j; unfold js; rewrite in_seq; lia).
  assert (HPQ : forall j, In j js -> P = D j * Q j)
    by (intros j Hj; apply product_split; [apply seq_NoDup|exact Hj]).
  exists P, Q. split; [|split].
  - apply product_nonzero. intros d Hd. apply in_map_iff in Hd as (j & <- & Hj).
    apply lagrangeDenominator_nonzero; [exact ND|now apply Hjs].
  - intros j Hj. apply HPQ. now apply Hjs.
  - set (G z := P * evalPoly f z
                + -1 * sum (map (fun j => (y (at_ points j) * Q j)
                                          * basisAt points j z) js)).
    assert (HG : G 0 = 0).
    { apply (@polynomialBelow_roots (List.length points) G (map x points)).
      - apply polynomialBelow_add.
        + apply polynomialBelow_scale. exists f. split; [exact Lf|reflexivity].
        + apply polynomialBelow_scale.
          apply (@polynomialBelow_sum _
                   (fun j z => (y (at_ points j) * Q j) * basisAt points j z)).
          intros j Hj. apply polynomialBelow_scale, basisAt_polynomial.
          now apply Hjs.
      - exact ND.
      - now rewrite length_map.
      - intros a Ha. apply in_map_iff in Ha as (p & <- & Hp).
        apply (In_nth _ _ {| x := 0; y := 0 |}) in Hp as (i & Hi & <-).
        fold (at_ points i). unfold G.
        rewrite (@sum_single _ js i); [|apply seq_NoDup|now apply Hjs|].
        + rewrite basisAt_own. fold (D i).
          rewrite <- (Hy (at_ points i)) by (apply nth_In; exact Hi).
          rewrite (HPQ i) by now apply Hjs. ring.
        + intros j Hj NE. rewrite basisAt_other; [ring|exact Hi| |exact NE].
          now apply Hjs. }
    unfold G in HG.
    rewrite (@map_ext _ _
               (fun j => y (at_ points j) * Q j * basisAt points j 0)
               (fun j => y (at_ points j) * Q j * lagrangeNumerator points j))
      in HG by (intros j; now rewrite basisAt_0).
    lia.
Qed.

(** X9.  For the shares of a polynomial of degree below their number, at
    distinct abscissas, the result misses the constant term by less than
    the number of points: each of the k divisions loses less than 1. *)
Theorem findSecret_error_below_number_of_points (f : list Z) (points : list Point) :
  NoDup (map x points) ->
  (List.length f <= List.length points)%nat ->
  (forall p, In p points -> y p = evalPoly f (x p)) ->
  exists secret,
    findSecret points = Ok secret /\
    Z.abs (secret - evalPoly f 0) <= Z.of_nat (Nat.pred (List.length points)).
Proof.
  intros ND Lf Hy.
  destruct (@lagrange_identity f points ND Lf Hy) as (P & Q & HP & HPQ & Id).
  exists (sum (map (lagrangeTerm points) (seq 0 (List.length points)))).
  split; [now apply findSecret_distinct|].
  set (js := seq 0 (List.length points)) in *.
  set (S := sum (map (lagrangeTerm points) js)).
  set (r j := Z.rem (y (at_ points j) * lagrangeNumerator points j)
                    (lagrangeDenominator points j)).
  assert (E : P * (evalPoly f 0 - S) = sum (map (fun j => Q j * r j) js)).
  { rewrite Z.mul_sub_distr_l, Id. unfold S.
    rewrite <- sum_map_scale.
    rewrite (@map_ext_in _ _
               (fun j => y (at_ points j) * Q j * lagrangeNumerator points j)
               (fun j => P * lagrangeTerm points j + Q j * r j)).
    - rewrite sum_map_add. ring.
    - intros j Hj. apply in_seq in Hj. rewrite (HPQ j) by lia.
      unfold lagrangeTerm, r.
      set (a := y (at_ points j) * lagrangeNumerator points j).
      set (d := lagrangeDenominator points j).
      pose proof (Z.quot_rem' a d) as QR.
      transitivity (Q j * a); [unfold a; ring|]. rewrite QR at 1. ring. }
  assert (B : Z.abs (sum (map (fun j => Q j * r j) js))
              <= Z.of_nat (List.length js) * (Z.abs P - 1)).
  { apply sum_map_bound. intros j Hj. apply in_seq in Hj.
    assert (Hd : lagrangeDenominator points j <> 0)
      by (apply lagrangeDenominator_nonzero; [exact ND|lia]).
    pose proof (Z.rem_bound_abs
                  (y (at_ points j) * lagrangeNumerator points j) _ Hd) as R.
    fold (r j) in R. rewrite Z.abs_mul.
    rewrite (HPQ j) by lia. rewrite Z.abs_mul.
    assert (0 < Z.abs (Q j)).
    { apply Z.abs_pos. intros Q0. apply HP. rewrite (HPQ j) by lia.
      rewrite Q0. ring. }
    nia. }
  rewrite <- E, Z.abs_mul in B. unfold js in B. rewrite length_seq in B.
  assert (0 < Z.abs P) by now apply Z.abs_pos.
  replace (Z.abs (S - evalPoly f 0)) with (Z.abs (evalPoly f 0 - S)) by lia.
  assert (0 <= Z.abs (evalPoly f 0 - S)) by lia.
  revert B H H0. generalize (Z.abs (evalPoly f 0 - S)) (Z.abs P). clear.
  intros b a B Ha Hb.
  destruct (List.length points) as [|k']; cbn [Nat.pred] in *; nia.
Qed.

Lemma findSecret_error_below_number_of_points_witness :
  exists secret,
    findSecret (sharesOf [1; 0; 1] [1; 3; 5]) = Ok secret /\
    Z.abs (secret - 1) <= 2.
Proof.
  apply (@findSecret_error_below_number_of_points
           [1; 0; 1] (sharesOf [1; 0; 1] [1; 3; 5])).
  - distinct_by_computation.
  - cbn. lia.
  - apply sharesOf_y.
Defined.

(** ** The Lagrange evaluation at the abscissas 1, 2, ..., k *)

Lemma binomial_above (n0 m : nat) : (n0 < m)%nat -> binomial n0 m = 0%nat.
Proof.
  revert m. induction n0 as [|n0 IH]; intros [|m] H; try lia; [reflexivity|].
  cbn [binomial]. rewrite !IH by lia. reflexivity.
Qed.

(** What makes the binomial coefficients whole numbers. *)
Lemma binomial_fact (n0 m : nat) :
  (m <= n0)%nat ->
  (binomial n0 m * (fact m * fact (n0 - m)) = fact n0)%nat.
Proof.
  revert m. induction n0 as [|n0 IH]; intros [|m] H; try lia.
  - reflexivity.
  - cbn [binomial]. rewrite Nat.sub_0_r. change (fact 0) with 1%nat. lia.
  - cbn [binomial]. destruct (Nat.eq_dec m n0) as [->|NE].
    + rewrite (@binomial_above n0 (S n0)) by lia.
      pose proof (IH n0 (Nat.le_refl n0)) as I. rewrite Nat.sub_diag in *.
      cbn [fact] in *. nia.
    + pose proof (IH m ltac:(lia)) as I1.
      pose proof (IH (S m) ltac:(lia)) as I2.
      replace (S n0 - S m)%nat with (S (n0 - S m)) by lia.
      replace (n0 - m)%nat with (S (n0 - S m)) in I1 by lia.
      cbn [fact] in *. nia.
Qed.

Lemma product_app (l1 l2 : list Z) :
  product (l1 ++ l2) = product l1 * product l2.
Proof.
  unfold product. induction l1 as [|a l1 IH]; cbn [app fold_right]; [ring|].
  rewrite IH. ring.
Qed.

Lemma product_abs (l : list Z) : Z.abs (product l) = product (map Z.abs l).
Proof.
  unfold product. induction l as [|a l IH]; cbn [map fold_right]; [reflexivity|].
  now rewrite Z.abs_mul, IH.
Qed.

Lemma product_consecutive (k0 : nat) :
  product (consecutive k0) = Z.of_nat (fact k0).
Proof.
  unfold consecutive. induction k0 as [|k0 IH]; [reflexivity|].
  rewrite seq_S, map_app, product_app, IH. cbn [map Nat.add].
  unfold product. cbn [fold_right fact]. lia.
Qed.

(** The distances from [S j] down to 1, 2, ..., j. *)
Lemma product_below (j : nat) :
  product (map (fun v => Z.abs (Z.of_nat (S j) - Z.of_nat v)) (seq 1 j))
  = Z.of_nat (fact j).
Proof.
  induction j as [|j IH]; [reflexivity|].
  cbn [seq map]. rewrite <- seq_shift, map_map.
  unfold product in *. cbn [fold_right].
  rewrite (@map_ext _ _ (fun v => Z.abs (Z.of_nat (S (S j)) - Z.of_nat (S v)))
             (fun v => Z.abs (Z.of_nat (S j) - Z.of_nat v)))
    by (intros v; f_equal; lia).
  rewrite IH. cbn [fact]. lia.
Qed.

(** The distances from [a] up to a + 1, ..., a + m. *)
Lemma product_above (a m : nat) :
  product (map (fun v => Z.abs (Z.of_nat a - Z.of_nat v)) (seq (S a) m))
  = Z.of_nat (fact m).
Proof.
  induction m as [|m IH]; [reflexivity|].
  rewrite seq_S, map_app, product_app, IH. cbn [map].
  unfold product. cbn [fold_right fact]. lia.
Qed.

Lemma NoDup_consecutive (k0 : nat) : NoDup (consecutive k0).
Proof.
  unfold consecutive. generalize (seq_NoDup k0 1).
  induction (seq 1 k0) as [|a l IH]; intros ND; [constructor|].
  apply NoDup_cons_iff in ND as [Na ND]. cbn [map]. constructor; [|now apply IH].
  intros H. apply in_map_iff in H as (b & E & Hb).
  apply Nat2Z.inj in E. now subst.
Qed.

Lemma firstn_of_seq (m start len : nat) :
  (m <= len)%nat -> firstn m (seq start len) = seq start m.
Proof.
  revert start len. induction m as [|m IH]; intros start [|len] H;
    try lia; [reflexivity..|].
  cbn [seq firstn]. f_equal. apply IH. lia.
Qed.

(** At the abscissas 1, ..., k every denominator divides its numerator:
    the quotient is, up to its sign, a binomial coefficient. *)
Lemma consecutive_divides (points : list Point) (j : nat) :
  map x points = consecutive (List.length points) ->
  (j < List.length points)%nat ->
  (lagrangeDenominator points j | lagrangeNumerator points j).
Proof.
  intros Hx Hj. set (k0 := List.length points) in *.
  assert (Xj : x (at_ points j) = Z.of_nat (S j)).
  { rewrite x_at, Hx. unfold consecutive.
    change 0 with (Z.of_nat 0). rewrite map_nth, seq_nth by exact Hj.
    f_equal. }
  assert (Xo : map x (others points j)
               = map Z.of_nat (seq 1 j)
                 ++ map Z.of_nat (seq (S (S j)) (k0 - S j))).
  { unfold others. rewrite map_app, <- firstn_map, <- skipn_map, Hx.
    unfold consecutive. rewrite firstn_map, skipn_map, skipn_seq.
    rewrite firstn_of_seq by lia. reflexivity. }
  assert (AD : Z.abs (lagrangeDenominator points j)
               = Z.of_nat (fact j * fact (k0 - S j))).
  { unfold lagrangeDenominator. rewrite product_abs, map_map, Xj.
    rewrite <- (map_map x (fun v => Z.abs (Z.of_nat (S j) - v))), Xo.
    rewrite map_app, product_app, !map_map.
    rewrite product_below, product_above. lia. }
  assert (AN : Z.of_nat (S j) * Z.abs (lagrangeNumerator points j)
               = Z.of_nat (fact k0)).
  { unfold lagrangeNumerator. rewrite product_abs, map_map.
    rewrite (@map_ext _ _ (fun p => Z.abs (- x p)) (fun p => Z.abs (x p)))
      by (intros p; apply Z.abs_opp).
    rewrite <- (map_map x Z.abs), Xo.
    rewrite <- product_consecutive. unfold consecutive.
    replace k0 with (j + S (k0 - S j))%nat at 2 by lia.
    rewrite seq_app, map_app, product_app. cbn [seq map Nat.add].
    rewrite map_app, product_app.
    rewrite !(@map_ext_in _ _ Z.abs (fun v => v));
      try (intros v Hv; apply in_map_iff in Hv as (u & <- & _); lia).
    rewrite map_id, map_id.
    cbn [map].
    change (product (Z.of_nat (S j)
                     :: map Z.of_nat (seq (S (S j)) (k0 - S j))))
      with (Z.of_nat (S j)
            * product (map Z.of_nat (seq (S (S j)) (k0 - S j)))).
    ring. }
  apply Z.divide_abs_l, Z.divide_abs_r.
  exists (Z.of_nat (binomial k0 (S j))).
  pose proof (@binomial_fact k0 (S j) ltac:(lia)) as BF.
  change (fact (S j)) with (S j * fact j)%nat in BF.
  apply (Z.mul_reg_l _ _ (Z.of_nat (S j))); [lia|].
  rewrite AN, AD, <- BF, <- !Nat2Z.inj_mul. f_equal. nia.
Qed.

Lemma findSecret_consecutive (f : list Z) (points : list Point) :
  map x points = consecutive (List.length points) ->
  (List.length f <= List.length points)%nat ->
  (forall p, In p points -> y p = evalPoly f (x p)) ->
  findSecret points = Ok (evalPoly f 0).
Proof.
  intros Hx Lf Hy. apply findSecret_exact_is_constant_term; auto.
  - rewrite Hx. apply NoDup_consecutive.
  - intros j Hj. apply Z.divide_mul_r. now apply consecutive_divides.
Qed.

(** X10.  The shares at 1, 2, ..., k of a polynomial of degree below k give its
    constant term: there every division is exact. *)
Theorem findSecret_at_consecutive_abscissas (f : list Z) (k0 : nat) :
  (List.length f <= k0)%nat ->
  findSecret (sharesOf f (consecutive k0)) = Ok (evalPoly f 0).
Proof.
  intros Lf.
  assert (L : List.length (sharesOf f (consecutive k0)) = k0)
    by (rewrite sharesOf_length; unfold consecutive;
        now rewrite length_map, length_seq).
  apply findSecret_consecutive.
  - now rewrite sharesOf_x, L.
  - now rewrite L.
  - apply sharesOf_y.
Qed.

Lemma findSecret_at_consecutive_abscissas_witness :
  findSecret (sharesOf [42; 0; -5; 1] (consecutive 4)) = Ok 42.
Proof.
  apply (@findSecret_at_consecutive_abscissas [42; 0; -5; 1] 4). cbn. lia.
Defined.

(** ** Reading the record: every share counts, the threshold is not checked *)

(** The enumeration visits every property once. *)
Lemma forIn_perm (A : Type) (o : object A) : Permutation (forIn o) o.
Proof.
  unfold forIn. induction o as [|p o IH]; [reflexivity|].
  cbn [indexProperties filter]. unfold isNamed at 1.
  destruct (arrayIndex (fst p)) as [i|].
  - rewrite insertByIndex_perm. cbn [map snd app]. now constructor.
  - rewrite <- Permutation_middle. now constructor.
Qed.

Lemma decodeRecords_succeeds (rs : list (string * Share)) :
  (exists ps, decodeRecords rs = Ok ps)
  <-> (forall r, In r rs -> exists p, decodeRecord r = Ok p).
Proof.
  induction rs as [|r rs IH]; cbn [decodeRecords].
  - split; [intros _ r []|intros _; now exists []].
  - split.
    + intros (ps & H) q [<-|Hq].
      * destruct (decodeRecord r) as [p|e]; [now exists p|discriminate H].
      * apply IH; [|exact Hq].
        destruct (decodeRecord r); [|discriminate H]. cbn [bind] in H.
        destruct (decodeRecords rs) as [ps'|]; [now exists ps'|discriminate H].
    + intros H. destruct (H r (or_introl eq_refl)) as (p & ->). cbn [bind].
      destruct IH as [_ IH]. destruct IH as (ps & ->).
      * intros q Hq. apply H. now right.
      * now exists (p :: ps).
Qed.

(** X11.  The shares are decoded all or none: [getPointsFromJSON] returns points
    exactly when every property not called [keys] decodes, identifier and
    value, and then returns one point for each, whatever the threshold. *)
Theorem getPointsFromJSON_all_or_nothing (data : TestCase) :
  ((exists points, getPointsFromJSON data = Ok points)
   <-> (forall r, In r (shares data) -> fst r <> "keys" ->
                  exists p, decodeRecord r = Ok p)) /\
  (forall points, getPointsFromJSON data = Ok points ->
     List.length points
     = List.length (filter (fun r => negb (String.eqb (fst r) "keys"))
                           (shares data))).
Proof.
  unfold getPointsFromJSON. rewrite pointsLoop_spec.
  set (notKeys := fun r : string * Share => negb (String.eqb (fst r) "keys")).
  assert (P : Permutation (filter notKeys (forIn (shares data)))
                          (filter notKeys (shares data)))
    by apply filter_perm, forIn_perm.
  split.
  - transitivity (exists ps, decodeRecords (filter notKeys (forIn (shares data)))
                             = Ok ps).
    + split; intros (ps & H).
      * destruct (decodeRecords _) as [ps'|]; [now exists ps'|discriminate H].
      * rewrite H. now exists ps.
    + rewrite decodeRecords_succeeds. split; intros H r.
      * intros Hr NE. apply H. apply (Permutation_in _ (Permutation_sym P)).
        apply filter_In. split; [exact Hr|].
        unfold notKeys. now destruct (String.eqb_spec (fst r) "keys").
      * intros Hr. apply (Permutation_in _ P) in Hr.
        apply filter_In in Hr as [Hr NK]. apply H; [exact Hr|].
        unfold notKeys in NK. now destruct (String.eqb_spec (fst r) "keys").
  - intros points H.
    destruct (decodeRecords _) as [ps|] eqn:D; [|discriminate H].
    cbn [bind app] in H. injection H as <-.
    rewrite (@decodeRecords_length _ _ D). now apply Permutation_length.
Qed.

(** X12.  The threshold is not checked against the shares at hand.  When [k] is
    at least their number all of them are used, without any error; when
    [k] is 0, or so far below 0 that nothing is left, no point is used and
    the secret printed is 0; for [k] between 0 and their number, [k]
    points are used. *)
Theorem threshold_is_not_enforced (testCase : TestCase) (allPoints : list Point) :
  getPointsFromJSON testCase = Ok allPoints ->
  (Z.of_nat (List.length allPoints) <= k (keys testCase) ->
   main testCase = findSecret allPoints) /\
  (k (keys testCase) = 0 \/ k (keys testCase) <= - Z.of_nat (List.length allPoints) ->
   main testCase = Ok 0) /\
  (0 <= k (keys testCase) <= Z.of_nat (List.length allPoints) ->
   exists points,
     pointsToUse testCase = Ok points /\
     Z.of_nat (List.length points) = k (keys testCase)).
Proof.
  intros H. unfold main, pointsToUse. rewrite H. cbn [bind]. unfold slice0.
  set (len := List.length allPoints). set (kk := k (keys testCase)).
  split; [|split].
  - intros Hk. destruct (Z.ltb_spec kk 0) as [L|L]; [lia|].
    rewrite Z.min_r by lia. rewrite Nat2Z.id. unfold len.
    now rewrite firstn_all.
  - intros Hk.
    assert (Z.to_nat (if kk <? 0 then Z.max (Z.of_nat len + kk) 0
                      else Z.min kk (Z.of_nat len)) = 0%nat) as ->
      by (destruct (Z.ltb_spec kk 0); lia).
    reflexivity.
  - intros Hk. eexists. split; [reflexivity|].
    destruct (Z.ltb_spec kk 0) as [L|L]; [lia|].
    rewrite length_firstn. fold len. lia.
Qed.

Lemma threshold_is_not_enforced_witness :
  main (testCaseOf {| n := 5; k := 5 |}
          [("1", {| base := "10"; value := "5" |});
           ("2", {| base := "10"; value := "7" |})])
  = findSecret [ {| x := 1; y := 5 |}; {| x := 2; y := 7 |} ].
Proof.
  apply (@threshold_is_not_enforced
           (testCaseOf {| n := 5; k := 5 |}
              [("1", {| base := "10"; value := "5" |});
               ("2", {| base := "10"; value := "7" |})])
           [ {| x := 1; y := 5 |}; {| x := 2; y := 7 |} ]);
    [reflexivity|cbn; lia].
Defined.

(** ** The whole run on shares numbered 1, 2, ..., m *)

Lemma strictly_sorted_unique (l1 l2 : list Z) :
  StronglySorted Z.lt l1 -> StronglySorted Z.lt l2 ->
  Permutation l1 l2 -> l1 = l2.
Proof.
  revert l2. induction l1 as [|a l1 IH]; intros l2 S1 S2 P.
  - apply Permutation_nil in P. now subst.
  - destruct l2 as [|b l2];
      [apply Permutation_sym, Permutation_nil in P; discriminate|].
    apply StronglySorted_inv in S1 as [S1 F1].
    apply StronglySorted_inv in S2 as [S2 F2].
    rewrite Forall_forall in F1, F2.
    assert (a = b) as <-.
    { assert (Ha : In a (b :: l2)) by (apply (Permutation_in _ P); now left).
      assert (Hb : In b (a :: l1))
        by (apply (Permutation_in _ (Permutation_sym P)); now left).
      destruct Ha as [->|Ha]; [reflexivity|].
      destruct Hb as [->|Hb]; [reflexivity|].
      specialize (F1 b Hb). specialize (F2 a Ha). lia. }
    f_equal. apply IH; auto. now apply Permutation_cons_inv in P.
Qed.

Lemma consecutive_sorted (m : nat) : StronglySorted Z.lt (consecutive m).
Proof.
  unfold consecutive. generalize 1%nat.
  induction m as [|m IH]; intros a; cbn [seq map]; constructor; [apply IH|].
  apply Forall_forall. intros z Hz.
  apply in_map_iff in Hz as (v & <- & Hv). apply in_seq in Hv. lia.
Qed.

(** Records that decode to the values of a polynomial at their indices
    decode to its shares there. *)
Lemma decodeRecords_shares (f : list Z) (rs : list (string * Share)) :
  (forall r, In r rs ->
     arrayIndex (fst r) <> None /\
     parseBigIntWithBase (value (snd r)) (parseInt10 (base (snd r)))
     = Ok (evalPoly f (indexOfRecord r))) ->
  decodeRecords rs = Ok (sharesOf f (map indexOfRecord rs)).
Proof.
  induction rs as [|r rs IH]; intros H; [reflexivity|].
  cbn [decodeRecords map]. unfold decodeRecord.
  destruct (H r (or_introl eq_refl)) as [I V].
  destruct (arrayIndex (fst r)) as [i|] eqn:Ei; [|contradiction].
  rewrite (BigInt_ofString_arrayIndex _ Ei), V. cbn [bind].
  rewrite IH by (intros q Hq; apply H; now right). cbn [bind].
  unfold indexOfRecord at 1 3. rewrite Ei. reflexivity.
Qed.

(** X13.  The run the program was written for.  The shares carry the
    identifiers 1, 2, ..., m, declared in any order, and the share of
    identifier i decodes to f(i), for a polynomial f with integer
    coefficients.  Whenever f has no more coefficients than points are
    used, that is than [k] and than [m], the secret printed is f(0). *)
Theorem main_recovers_secret
    (f : list Z) (ks : Keys) (members : list (string * Share)) :
  Permutation (map indexOfRecord members)
              (consecutive (List.length members)) ->
  (forall r, In r members ->
     parseBigIntWithBase (value (snd r)) (parseInt10 (base (snd r)))
     = Ok (evalPoly f (indexOfRecord r))) ->
  (List.length f <= Z.to_nat (k ks))%nat ->
  (List.length f <= List.length members)%nat ->
  main (testCaseOf ks members) = Ok (evalPoly f 0).
Proof.
  intros P V Lk Lm. set (m := List.length members) in *.
  assert (Hpos : forall r, In r members -> 1 <= indexOfRecord r).
  { intros r Hr.
    assert (Hi : In (indexOfRecord r) (consecutive m))
      by (apply (Permutation_in _ P); now apply in_map).
    unfold consecutive in Hi. apply in_map_iff in Hi as (v & <- & Hv).
    apply in_seq in Hv. lia. }
  assert (Hidx : forall r, In r members -> arrayIndex (fst r) <> None).
  { intros r Hr E. specialize (Hpos r Hr). unfold indexOfRecord in Hpos.
    rewrite E in Hpos. lia. }
  assert (ND : NoDup (map fst members)).
  { apply (@NoDup_map_inv _ _
             (fun key => match arrayIndex key with Some i => i | None => -1 end)).
    rewrite map_map. change (NoDup (map indexOfRecord members)).
    eapply Permutation_NoDup; [apply Permutation_sym, P|apply NoDup_consecutive]. }
  set (sorted := map snd (indexProperties members)).
  pose proof (indexProperties_perm members Hidx) as Ps. fold sorted in Ps.
  assert (Xs : map indexOfRecord sorted = consecutive m).
  { apply strictly_sorted_unique.
    - apply ascending_strict.
      + eapply Permutation_NoDup;
          [apply Permutation_map, Permutation_sym, Ps|exact ND].
      + intros r Hr. apply Hidx, (Permutation_in _ Ps), Hr.
      + apply indexProperties_ascending.
    - apply consecutive_sorted.
    - rewrite <- P. now apply Permutation_map. }
  unfold main. rewrite (@pointsToUse_enumerated ks members ND Hidx).
  fold sorted. rewrite (@decodeRecords_shares f sorted).
  - rewrite Xs. cbn [bind]. unfold slice0.
    set (c := Z.to_nat _).
    assert (Hc : (c <= m)%nat /\ (List.length f <= c)%nat).
    { unfold c. rewrite sharesOf_length. unfold consecutive.
      rewrite length_map, length_seq.
      destruct (Z.ltb_spec (k ks) 0); lia. }
    assert (E : firstn c (sharesOf f (consecutive m)) = sharesOf f (consecutive c)).
    { unfold sharesOf, consecutive. rewrite !firstn_map.
      now rewrite firstn_of_seq by lia. }
    rewrite E.
    assert (L : List.length (sharesOf f (consecutive c)) = c)
      by (rewrite sharesOf_length; unfold consecutive;
          now rewrite length_map, length_seq).
    apply findSecret_consecutive.
    + now rewrite sharesOf_x, L.
    + rewrite L. lia.
    + apply sharesOf_y.
  - intros r Hr. apply (Permutation_in _ Ps) in Hr. split; auto.
Qed.

Lemma main_recovers_secret_witness :
  main (testCaseOf {| n := 4; k := 3 |}
          [("4", {| base := "16"; value := "2e" |});
           ("2", {| base := "2"; value := "10100" |});
           ("1", {| base := "10"; value := "13" |});
           ("3", {| base := "36"; value := "V" |})]) = Ok 10.
Proof.
  apply (@main_recovers_secret [10; 1; 2]
           {| n := 4; k := 3 |}
           [("4", {| base := "16"; value := "2e" |});
            ("2", {| base := "2"; value := "10100" |});
            ("1", {| base := "10"; value := "13" |});
            ("3", {| base := "36"; value := "V" |})]).
  - change (Permutation [4; 2; 1; 3] [1; 2; 3; 4]).
    apply Permutation_sym.
    apply (perm_trans (l' := [1; 2; 4; 3])); [apply perm_skip, perm_skip, perm_swap|].
    apply (perm_trans (l' := [1; 4; 2; 3])); [apply perm_skip, perm_swap|].
    apply (perm_trans (l' := [4; 1; 2; 3])); [apply perm_swap|].
    apply perm_skip, perm_swap.
  - intros r [<-|[<-|[<-|[<-|[]]]]]; reflexivity.
  - cbn. lia.
  - cbn. lia.
Defined.


(** ** The driver: what reaches the console *)

Section DriverFacts.

Context {E : Type}.
Variable readFileSync : string -> string + E.
Variable JSON_parse_text : string -> TestCase + E.
Variable Number_toString : Z -> string.

(** The listing of the points never holds the line that announces the
    secret, however the run-time prints the number [k]. *)
Lemma reportPoints_no_secret (k0 : Z) (points : list Point) :
  ~ In "Secret (c) Found:" (reportPoints Number_toString k0 points).
Proof.
  unfold reportPoints. intros [H|H]; [discriminate H|].
  apply in_map_iff in H as (p & H & _). discriminate H.
Qed.

(** X14.  With a path that reads and parses, and a threshold [k] below
    2^53 in absolute value, which the run-time prints as a decimal
    numeral, the console shows what the pipeline returns.  When [main]
    returns a secret, the header with [k] in decimal and the points are
    listed, the secret follows in decimal and nothing is reported as an
    error.  When [main] throws, that exception is the one report on the
    error stream and no secret is announced; if it was thrown by the
    interpolation, the header and the points used have been listed
    before. *)
Theorem run_shows_what_main_returns
    (path fileContent : string) (testCase : TestCase) :
  (forall z, Z.abs z < 2 ^ 53 -> Number_toString z = toString z) ->
  Z.abs (k (keys testCase)) < 2 ^ 53 ->
  path <> "" ->
  readFileSync path = inl fileContent ->
  JSON_parse_text fileContent = inl testCase ->
  (forall secret, main testCase = Ok secret ->
     exists points,
       pointsToUse testCase = Ok points /\
       run readFileSync JSON_parse_text Number_toString (Some path)
       = {| stdout := reportPoints toString (k (keys testCase)) points
                      ++ reportSecret secret;
            stderr := [] |}) /\
  (forall e, main testCase = Throw e ->
     stderr (run readFileSync JSON_parse_text Number_toString (Some path))
     = [ErrorCaught "An error occurred:" (inl e)] /\
     ~ In "Secret (c) Found:"
          (stdout (run readFileSync JSON_parse_text Number_toString (Some path))) /\
     (forall points, pointsToUse testCase = Ok points ->
        stdout (run readFileSync JSON_parse_text Number_toString (Some path))
        = reportPoints toString (k (keys testCase)) points)).
Proof.
  intros Dec Hk NE R P. unfold run, main, pointsToUse.
  destruct path as [|c path]; [contradiction|]. rewrite R, P.
  assert (Hd : forall points,
             reportPoints Number_toString (k (keys testCase)) points
             = reportPoints toString (k (keys testCase)) points)
    by (intros points; unfold reportPoints; now rewrite (Dec _ Hk)).
  destruct (getPointsFromJSON testCase) as [allPoints|e0]; cbn [bind].
  - destruct (findSecret (slice0 allPoints (k (keys testCase)))) as [s|e0].
    + split.
      * intros secret H. injection H as <-. eexists. split; [reflexivity|].
        now rewrite Hd.
      * intros e H. discriminate H.
    + split.
      * intros secret H. discriminate H.
      * intros e H. injection H as <-. cbn [caught stdout stderr].
        split; [reflexivity|]. split; [apply reportPoints_no_secret|].
        intros points H. injection H as <-. apply Hd.
  - split.
    + intros secret H. discriminate H.
    + intros e H. injection H as <-. cbn [caught stdout stderr].
      split; [reflexivity|]. split; [intros []|].
      intros points H. discriminate H.
Qed.

(** X15.  Every run ends in one of two ways: a secret is announced as the
    last thing on standard output and the error stream stays empty, or
    something is reported on the error stream and no secret is
    announced.  This holds with or without a path, whatever the file
    holds. *)
Theorem run_announces_a_secret_or_reports (filePath : option string) :
  let out := run readFileSync JSON_parse_text Number_toString filePath in
  (stderr out = [] /\
   exists printed secret, stdout out = printed ++ reportSecret secret) \/
  (stderr out <> [] /\ ~ In "Secret (c) Found:" (stdout out)).
Proof.
  cbv zeta. unfold run.
  destruct filePath as [[|c path]|];
    try (right; cbn [stdout stderr]; split; [discriminate|intros []]).
  destruct (readFileSync (String c path)) as [fileContent|e];
    [|right; cbn [caught stdout stderr]; split; [discriminate|intros []]].
  destruct (JSON_parse_text fileContent) as [testCase|e];
    [|right; cbn [caught stdout stderr]; split; [discriminate|intros []]].
  destruct (getPointsFromJSON testCase) as [allPoints|e];
    [|right; cbn [caught stdout stderr]; split; [discriminate|intros []]].
  destruct (findSecret _) as [secret|e].
  - left. cbn [stdout stderr]. split; [reflexivity|]. eauto.
  - right. cbn [caught stdout stderr]. split; [discriminate|].
    apply reportPoints_no_secret.
Qed.

End DriverFacts.

(** X14 on a record of two shares with k = 2, which is printed as "2". *)
Lemma run_shows_what_main_returns_witness :
  run (fun _ => inl "{...}")
      (fun _ => inl (B := unit)
                  (testCaseOf {| n := 2; k := 2 |}
                     [("1", {| base := "10"; value := "5" |});
                      ("2", {| base := "10"; value := "7" |})]))
      toString
      (Some "case.json")
  = {| stdout := ["Using 2 points for interpolation:";
                  "  (x=1, y=5)"; "  (x=2, y=7)";
                  String "010" "--------------------";
                  "Secret (c) Found:"; "3"; "--------------------"];
       stderr := [] |}.
Proof.
  set (testCase := testCaseOf {| n := 2; k := 2 |}
                     [("1", {| base := "10"; value := "5" |});
                      ("2", {| base := "10"; value := "7" |})]).
  destruct (@run_shows_what_main_returns unit
              (fun _ => inl "{...}") (fun _ => inl testCase) toString
              "case.json" "{...}" testCase) as [S _];
    [intros; reflexivity | reflexivity | discriminate
     | reflexivity | reflexivity |].
  destruct (S 3 eq_refl) as (points & Hp & ->).
  injection Hp as <-. reflexivity.
Defined.
